(** * pomelo-rpc-ws: the RPC client ([lib/rpc-client/client.js])

    A shallow embedding of the client lifecycle, the proxy interception
    routine and the construction-time registry build, followed by the
    properties of the specification that concern them.

    The client talks to three collaborators that live outside the file:
    the mail station, the router and the loader.  A call to one of them is
    recorded as an effect; a JavaScript closure handed to a collaborator is
    kept as a piece of data ([Cont]) together with the function that runs
    its body ([resume]), so that the moment at which the collaborator calls
    it back is left to the environment, as it is in the source. *)

From stdpp Require Import gmap strings list fin_maps.
From Stdlib Require Import ZArith Lia.

Set Warnings "-register-all".
Open Scope string_scope.
Open Scope list_scope.
Open Scope Z_scope.

(** ** JavaScript values *)

Inductive value : Type :=
| VUndefined
| VNull
| VBool (b : bool)
| VNum (n : Z)
| VStr (s : string)
| VFun (f : nat)
| VError (message : string)
| VArr (elems : list value)
| VObj (fields : list (string * value)).

(** The truth value a JavaScript condition gives to a value. *)
Definition truthy (v : value) : bool :=
  match v with
  | VUndefined | VNull => false
  | VBool b => b
  | VNum n => negb (n =? 0)
  | VStr s => negb (String.eqb s "")
  | VFun _ | VError _ | VArr _ | VObj _ => true
  end.

(** [a || b] *)
Definition js_or (a b : value) : value := if truthy a then a else b.

(** [Array.prototype.shift]: the first element ([undefined] on an empty
    array) and the array that is left. *)
Definition shift (args : list value) : value * list value :=
  match args with
  | [] => (VUndefined, [])
  | x :: rest => (x, rest)
  end.

(** [Array.prototype.pop]: the last element ([undefined] on an empty array)
    and the array that is left. *)
Definition pop (args : list value) : value * list value :=
  (List.last args VUndefined, List.removelast args).

(** ** Client states *)

Inductive ClientState : Type := Inited | Started | Closed.

#[global] Instance ClientState_eq_dec : EqDecision ClientState.
Proof. solve_decision. Defined.

Definition STATE_INITED : Z := 1.
Definition STATE_STARTED : Z := 2.
Definition STATE_CLOSED : Z := 3.

(** The number the source stores in [client.state]. *)
Definition code (s : ClientState) : Z :=
  match s with
  | Inited => STATE_INITED
  | Started => STATE_STARTED
  | Closed => STATE_CLOSED
  end.

(** ** Descriptors, stubs and the registry *)

(** An element of [opts.paths]. *)
Record PathItem : Type := mkItem {
  namespace : string;
  serverType : string;
  path : string
}.

(** Modelled from the spec: [Proxy.create] of [lib/util/proxy.js], which is
    not part of the sources at hand.  A stub carries the service name, the
    callable surface of the loaded module and the attachment captured when
    it was generated; invoking one of its members runs the interception
    routine with them. *)
Record Stub : Type := mkStub {
  service : string;
  origin : list string;
  attach : PathItem
}.

Definition Proxy_create (service : string) (origin : list string)
    (attach : PathItem) : Stub :=
  mkStub service origin attach.

Abbreviation Registry := (gmap string (gmap string Stub)).

(** ** The client object *)

Record Client : Type := mkClient {
  _servers : value;
  _context : value;
  router : value;
  _mailboxFactory : value;
  proxies : Registry;
  state : ClientState
}.

Definition with_state (s : ClientState) (c : Client) : Client :=
  mkClient (_servers c) (_context c) (router c) (_mailboxFactory c)
           (proxies c) s.

(** ** Effects *)

(** The two closures the client hands to its collaborators:
    [function(err) {...}] of [start] and [function(err, serverId) {...}] of
    [proxyCB], each with the variables it captures. *)
Inductive Cont : Type :=
| KStart (cb : value)
| KRoute (msg : value) (cb : value).

(** [ConsoleError format params] is [console.error(format, params...)].
    [ConsoleErrorStack prefix err] is [console.error(prefix + err.stack)]:
    one string argument, the prefix followed by the [stack] property of
    [err] as the engine renders it ("undefined" for a value that has no
    such property). *)
Inductive Event : Type :=
| ConsoleError (format : string) (params : list value)
| ConsoleErrorStack (prefix : string) (err : value)
| ConsoleWarn (message : string)
| InvokeCallback (cb : value) (params : list value)
| StationStart (k : Cont)
| StationStop (force : value)
| StationDispatch (serverId msg opts cb : value)
| StationBefore (filter : value)
| StationAfter (filter : value)
| RouterRoute (msg routeParam servers : value) (k : Cont)
| StationCreate (servers mailboxFactory : value).

(** An effect is recorded with the value of [client.state] at the time it
    happens, which fixes its order with respect to the assignments to
    [client.state]. *)
Definition Effect : Type := ClientState * Event.

Inductive Completion (A : Type) : Type :=
| Normal (a : A)
| Throw (e : value).
Arguments Normal {A} a.
Arguments Throw {A} e.

(** A method of the client: it reads and writes the client object, performs
    effects in order and returns or throws. *)
Definition M (A : Type) : Type := Client -> Completion A * Client * list Effect.

Definition ret {A} (a : A) : M A := fun c => (Normal a, c, []).

Definition bind {A B} (m : M A) (f : A -> M B) : M B :=
  fun c =>
    match m c with
    | (Normal a, c1, t1) =>
        match f a c1 with
        | (r, c2, t2) => (r, c2, t1 ++ t2)
        end
    | (Throw e, c1, t1) => (Throw e, c1, t1)
    end.

Notation "x <- m ;; k" := (bind m (fun x => k))
  (at level 100, m at next level, right associativity).
Notation "m ;; k" := (bind m (fun _ => k))
  (at level 100, right associativity).

Definition get_state : M ClientState := fun c => (Normal (state c), c, []).
Definition set_state (s : ClientState) : M unit :=
  fun c => (Normal tt, with_state s c, []).
Definition get_servers : M value := fun c => (Normal (_servers c), c, []).
Definition emit (e : Event) : M unit := fun c => (Normal tt, c, [(state c, e)]).
Definition throw {A} (e : value) : M A := fun c => (Throw e, c, []).

Definition outcome {A} (r : Completion A * Client * list Effect) : Completion A :=
  fst (fst r).
Definition client_after {A} (r : Completion A * Client * list Effect) : Client :=
  snd (fst r).
Definition effects {A} (r : Completion A * Client * list Effect) : list Effect :=
  snd r.
Definition events {A} (r : Completion A * Client * list Effect) : list Event :=
  map snd (effects r).

(** Modelled from the spec: [utils.invokeCallback] of [lib/util/utils.js],
    which is not part of the sources at hand; it delivers the given
    arguments to the completion handler. *)
Definition invokeCallback (cb : value) (params : list value) : M unit :=
  emit (InvokeCallback cb params).

(** ** Lifecycle *)

(** The body of the closure [start] gives to the station. *)
Definition start_completion (cb : value) (err : value) : M unit :=
  if truthy err then
    emit (ConsoleErrorStack "[pomelo-rpc] client start fail for " err) ;;
    invokeCallback cb [err]
  else
    set_state Started ;;
    invokeCallback cb [].

Definition start (cb : value) : M unit :=
  s <- get_state ;;
  if code s >? STATE_INITED then
    invokeCallback cb [VError "rpc client has started."]
  else
    emit (StationStart (KStart cb)).

Definition stop (force : value) : M unit :=
  s <- get_state ;;
  if negb (code s =? STATE_STARTED) then
    emit (ConsoleWarn "[pomelo-rpc] client is not running now.")
  else
    set_state Closed ;;
    emit (StationStop force).

Definition rpcInvoke (serverId msg cb : value) : M unit :=
  s <- get_state ;;
  if negb (code s =? STATE_STARTED) then
    throw (VError "[pomelo-rpc] fail to do rpc invoke for client is not running")
  else
    emit (StationDispatch serverId msg VNull cb).

Definition before (filter : value) : M unit := emit (StationBefore filter).
Definition after (filter : value) : M unit := emit (StationAfter filter).

(** ** The interception routine *)

Definition not_running_proxy : value :=
  VError "[pomelo-rpc] fail to invoke rpc proxy for client is not running".

Definition arity_format : string :=
  "[pomelo-rpc] invalid rpc invoke, arguments length less than 2, namespace: %j, serverType, %j, serviceName: %j, methodName: %j".

(** The object literal of [proxyCB]. *)
Definition envelope (attach : PathItem) (serviceName methodName : string)
    (args : list value) : value :=
  VObj [("namespace", VStr (namespace attach));
        ("serverType", VStr (serverType attach));
        ("service", VStr serviceName);
        ("method", VStr methodName);
        ("args", VArr args)].

(** The body of the closure [proxyCB] gives to the router. *)
Definition route_completion (msg cb : value) (err serverId : value) : M unit :=
  if truthy err then invokeCallback cb [err]
  else rpcInvoke serverId msg cb.

Definition proxyCB (serviceName methodName : string) (args : list value)
    (attach : PathItem) (invoke : value) : M unit :=
  s <- get_state ;;
  if negb (code s =? STATE_STARTED) then throw not_running_proxy
  else if Z.of_nat (length args) <? 2 then
    emit (ConsoleError arity_format
            [VStr (namespace attach); VStr (serverType attach);
             VStr serviceName; VStr methodName])
  else
    let '(routeParam, args1) := shift args in
    let '(cb, args2) := pop args1 in
    let msg := envelope attach serviceName methodName args2 in
    servers <- get_servers ;;
    emit (RouterRoute msg routeParam servers (KRoute msg cb)).

(** A collaborator calls a closure it was given. *)
Definition param (i : nat) (params : list value) : value :=
  nth i params VUndefined.

Definition resume (k : Cont) (params : list value) : M unit :=
  match k with
  | KStart cb => start_completion cb (param 0 params)
  | KRoute msg cb => route_completion msg cb (param 0 params) (param 1 params)
  end.

(** [registry[ns][type]] *)
Definition lookup_stub (reg : Registry) (ns ty : string) : option Stub :=
  match reg !! ns with
  | Some inner => inner !! ty
  | None => None
  end.

Definition not_a_function : value := VError "TypeError".

(** Modelled from the spec: a member of a stub built by [Proxy.create]
    ([lib/util/proxy.js] is not part of the sources at hand).  Calling
    [registry[ns][type].method(...)] runs the interception routine with the
    stub's service name, the method name, the full argument list and the
    attachment of the stub. *)
Definition stub_call (ns ty method : string) (args : list value) : M unit :=
  fun c =>
    match lookup_stub (proxies c) ns ty with
    | Some stub =>
        if bool_decide (method ∈ origin stub)
        then proxyCB (service stub) method args (attach stub) VUndefined c
        else throw not_a_function c
    | None => throw not_a_function c
    end.

(** ** Construction *)

Record Opts : Type := mkOpts {
  opt_paths : option (list PathItem);
  opt_servers : value;
  opt_context : value;
  opt_router : value;
  opt_mailboxFactory : value;
  opt_route : value;
  opt_mailBoxFactory : value
}.

(** [v.length].  The length of a function is the number of parameters it
    declares, which the identity of the function does not tell:
    [function_length] gives it. *)
Definition js_length (function_length : nat -> Z) (v : value) : value :=
  match v with
  | VArr l => VNum (Z.of_nat (length l))
  | VStr s => VNum (Z.of_nat (String.length s))
  | VFun f => VNum (function_length f)
  | VObj fields =>
      match List.find (fun kv => String.eqb (fst kv) "length") fields with
      | Some kv => snd kv
      | None => VUndefined
      end
  | _ => VUndefined
  end.

Definition createNamespace (namespace : string) (proxies : Registry) : Registry :=
  <[namespace := default ∅ (proxies !! namespace)]> proxies.

Section Construction.

(** The loader ([pomelo-loader]) seen from the client: for a path and a
    context, the name and the callable surface of the module found there,
    or nothing. *)
Variable discover : string -> value -> option (string * list string).

(** [require('./router')], [require('./router').route] and
    [require('./mailbox')]. *)
Variables router_module defaultRoute defaultMailBoxFactory : value.

(** The number of parameters each function value declares. *)
Variable function_length : nat -> Z.

Definition loadedCB (path moduleName : string) (module : list string)
    (attach : PathItem) : Stub :=
  Proxy_create moduleName module attach.

(** Modelled from the spec: [Loader.load(path, context, attach, loadedCB)];
    the loader is an external package.  It hands what it found at [path],
    with the descriptor, to [loadedCB] and returns the result, or nothing
    when the path yields no module. *)
Definition Loader_load (path : string) (context : value) (item : PathItem)
    (cb : string -> string -> list string -> PathItem -> Stub) : option Stub :=
  match discover path context with
  | Some (moduleName, module) => Some (cb path moduleName module item)
  | None => None
  end.

(** One turn of the loop of [generateProxies]. *)
Definition register (context : value) (proxies : Registry) (item : PathItem)
    : Registry :=
  match Loader_load (path item) context item loadedCB with
  | Some m =>
      let proxies := createNamespace (namespace item) proxies in
      alter (fun inner => <[serverType item := m]> inner) (namespace item) proxies
  | None => proxies
  end.

Definition build (context : value) (paths : list PathItem) (proxies : Registry)
    : Registry :=
  foldl (register context) proxies paths.

Definition generateProxies (paths : option (list PathItem)) (context : value)
    : Completion Registry :=
  match paths with
  | None => Throw (VError "TypeError: Cannot read property 'length' of undefined")
  | Some items => Normal (build context items ∅)
  end.

Definition createStation (servers mailboxFactory : value) : Event :=
  StationCreate servers mailboxFactory.

(** [new Client(opts)].  The constructor stores the context in
    [this._context] and passes [this.context], which is never assigned,
    to [generateProxies]. *)
Definition Client_new (opts : Opts) : Completion Client * list Event :=
  let station := createStation (opt_servers opts) (opt_mailboxFactory opts) in
  match generateProxies (opt_paths opts) VUndefined with
  | Normal registry =>
      (Normal (mkClient (opt_servers opts) (opt_context opts)
                        (js_or (opt_router opts) router_module)
                        (opt_mailboxFactory opts) registry Inited),
       [station])
  | Throw e => (Throw e, [station])
  end.

(** [module.exports.create] *)
Definition create (opts : option Opts) : Completion Client * list Event :=
  match opts with
  | None => (Throw (VError "TypeError: Cannot read property 'servers' of undefined"), [])
  | Some o => Client_new o
  end.

(** [checkParams], which no function of the file calls. *)
Definition checkParams (opts : option Opts) : Completion Opts :=
  match opts with
  | None => Throw (VError "opts should not be empty.")
  | Some o =>
      if match opt_paths o with
         | None => true
         | Some items => negb (truthy (VNum (Z.of_nat (length items))))
         end
      then Throw (VError "opts.paths should not be empty.")
      else if negb (truthy (opt_servers o))
              || negb (truthy (js_length function_length (opt_servers o)))
      then Throw (VError "opts.servers should not be empty.")
      else Normal (mkOpts (opt_paths o) (opt_servers o) (opt_context o)
                          (opt_router o) (opt_mailboxFactory o)
                          (js_or (opt_route o) defaultRoute)
                          (js_or (opt_mailboxFactory o) defaultMailBoxFactory))
  end.

End Construction.

(** Every stub is stored under the namespace and the server type of its
    attachment. *)
Definition keyed (reg : Registry) : Prop :=
  forall ns ty stub,
    lookup_stub reg ns ty = Some stub ->
    namespace (attach stub) = ns /\ serverType (attach stub) = ty.

(** ** Operations on a client *)

(** What can happen to a client: the application calls one of its methods
    or a member of one of its stubs, or a collaborator calls a closure the
    client gave it. *)
Inductive Op : Type :=
| CallStart (cb : value)
| CallStop (force : value)
| CallRpcInvoke (serverId msg cb : value)
| CallBefore (filter : value)
| CallAfter (filter : value)
| CallStub (ns ty method : string) (args : list value)
| CallBack (k : Cont) (params : list value).

Definition exec (op : Op) : M unit :=
  match op with
  | CallStart cb => start cb
  | CallStop force => stop force
  | CallRpcInvoke serverId msg cb => rpcInvoke serverId msg cb
  | CallBefore filter => before filter
  | CallAfter filter => after filter
  | CallStub ns ty method args => stub_call ns ty method args
  | CallBack k params => resume k params
  end.

(** The client after a sequence of operations; an operation that throws
    leaves the client as it was at the throw and the next one goes on from
    there. *)
Fixpoint run (ops : list Op) (c : Client) : Client :=
  match ops with
  | [] => c
  | op :: rest => run rest (client_after (exec op c))
  end.

(** The effects of a sequence of operations, in order. *)
Fixpoint trace (ops : list Op) (c : Client) : list Effect :=
  match ops with
  | [] => []
  | op :: rest => effects (exec op c) ++ trace rest (client_after (exec op c))
  end.

(** The values [client.state] takes: before the first operation and after
    each one. *)
Fixpoint visited (ops : list Op) (c : Client) : list ClientState :=
  state c ::
  match ops with
  | [] => []
  | op :: rest => visited rest (client_after (exec op c))
  end.

(** No value of the state is followed by a smaller one. *)
Fixpoint forward (l : list ClientState) : Prop :=
  match l with
  | s :: (s' :: _) as rest => code s <= code s' /\ forward rest
  | _ => True
  end.

(** The station reports the success of a [start] to a client that was
    closed in the meantime. *)
Definition late_start (op : Op) (c : Client) : bool :=
  match op with
  | CallBack (KStart _) params =>
      negb (truthy (param 0 params)) && (code (state c) =? STATE_CLOSED)
  | _ => false
  end.

Fixpoint no_late_start (ops : list Op) (c : Client) : Prop :=
  match ops with
  | [] => True
  | op :: rest =>
      late_start op c = false /\ no_late_start rest (client_after (exec op c))
  end.

(** ** Collaborators that answer at once *)

(** A router that calls the routing closure once, before [route] returns,
    with the arguments [reply] computes; the closures of every [route] call
    among [es] are run in order. *)
Fixpoint answer_routes (reply : value -> value -> value -> list value)
    (es : list Event) : M unit :=
  match es with
  | [] => ret tt
  | RouterRoute msg routeParam servers k :: rest =>
      resume k (reply msg routeParam servers) ;;
      answer_routes reply rest
  | _ :: rest => answer_routes reply rest
  end.

Definition routed (reply : value -> value -> value -> list value)
    (m : M unit) : M unit :=
  fun c =>
    match m c with
    | (Normal _, c1, t1) =>
        match answer_routes reply (map snd t1) c1 with
        | (r, c2, t2) => (r, c2, t1 ++ t2)
        end
    | (Throw e, c1, t1) => (Throw e, c1, t1)
    end.

(** The router of the round trip: it resolves every call to [serverId]. *)
Definition fixed_router (serverId : value) : value -> value -> value -> list value :=
  fun _ _ _ => [VNull; serverId].

(** Modelled from the spec: the dispatch station ([lib/rpc-client/mailstation.js]
    is not part of the sources at hand) invokes the completion handler it
    got with a [dispatch], once, with the outcome of the call.  The calls
    of completion handlers a list of events amounts to are those the client
    makes itself through [invokeCallback] and those the station makes for
    the dispatches it received. *)
Definition deliveries (station : value -> value -> value -> list value)
    (e : Event) : list (value * list value) :=
  match e with
  | InvokeCallback cb params => [(cb, params)]
  | StationDispatch serverId msg opts cb => [(cb, station serverId msg opts)]
  | _ => []
  end.

Definition handler_calls (station : value -> value -> value -> list value)
    (es : list Event) : list (value * list value) :=
  flat_map (deliveries station) es.

(** The station of the round trip: it gives the server id and the envelope
    back to the completion handler. *)
Definition echo_station : value -> value -> value -> list value :=
  fun serverId msg _ => [serverId; msg].

(** The collaborators a list of events reaches. *)
Definition reaches_station (e : Event) : bool :=
  match e with
  | StationStart _ | StationStop _ | StationDispatch _ _ _ _
  | StationBefore _ | StationAfter _ | StationCreate _ _ => true
  | _ => false
  end.

Definition reaches_router (e : Event) : bool :=
  match e with
  | RouterRoute _ _ _ _ => true
  | _ => false
  end.

(** The argument list with its first and its last element removed, as the
    specification words it. *)
Definition without_first_and_last (args : list value) : list value :=
  firstn (length args - 2) (skipn 1 args).

(** ** Fixtures *)

Module Demo.

Definition discover (path : string) (context : value)
    : option (string * list string) :=
  if String.eqb path "/app/servers/chat/remote" then
    Some ("chatRemote", ["send"; "kick"])
  else if String.eqb path "/app/servers/chat/remote2" then
    Some ("roomRemote", ["join"])
  else None.

Definition chat : PathItem := mkItem "user" "chat" "/app/servers/chat/remote".
Definition chat2 : PathItem := mkItem "user" "chat" "/app/servers/chat/remote2".
Definition gone : PathItem := mkItem "user" "gate" "/app/servers/gate/remote".

Definition servers : value :=
  VObj [("chat", VArr [VObj [("id", VStr "chat-server-1")]])].

Definition router_module : value := VObj [("route", VFun 0)].

Definition opts : Opts :=
  mkOpts (Some [chat]) servers VNull VUndefined VUndefined VUndefined VUndefined.

Definition registry : Registry := build discover VUndefined [chat] ∅.

Definition client (s : ClientState) : Client :=
  mkClient servers VNull router_module VUndefined registry s.

Definition done : value := VFun 1.
Definition done2 : value := VFun 2.

End Demo.

(** ** Notions for the further properties *)

(** The filter registrations among the operations and their effects. *)
Definition is_filter_op (op : Op) : bool :=
  match op with
  | CallBefore _ | CallAfter _ => true
  | _ => false
  end.

Definition is_filter_event (e : Effect) : bool :=
  match snd e with
  | StationBefore _ | StationAfter _ => true
  | _ => false
  end.

(** The call of the station a filter registration stands for. *)
Definition registration (op : Op) : list Event :=
  match op with
  | CallBefore filter => [StationBefore filter]
  | CallAfter filter => [StationAfter filter]
  | _ => []
  end.

(** What the descriptor [item] stores at [registry[ns][ty]], if anything. *)
Definition loaded_for (discover : string -> value -> option (string * list string))
    (context : value) (ns ty : string) (item : PathItem) : option Stub :=
  if bool_decide (namespace item = ns /\ serverType item = ty)
  then Loader_load discover (path item) context item loadedCB
  else None.

(** [opts] with another [context]. *)
Definition with_context (context : value) (o : Opts) : Opts :=
  mkOpts (opt_paths o) (opt_servers o) context (opt_router o)
         (opt_mailboxFactory o) (opt_route o) (opt_mailBoxFactory o).

(** * Properties *)

(** ** Running the methods *)

(** Case analysis on an operation. *)
Ltac each_op op :=
  destruct op as [cb|force|serverId msg cb|filter|filter|ns ty method args|k params].

Lemma with_state_same (c : Client) : with_state (state c) c = c.
Proof. destruct c; reflexivity. Qed.

Lemma not_started_code (s : ClientState) :
  s <> Started -> (code s =? STATE_STARTED) = false.
Proof. destruct s; intros H; try reflexivity. congruence. Qed.

(** ** C2 *)

Lemma two_or_more (args : list value) :
  (2 <= length args)%nat ->
  exists hint mid cb, args = hint :: mid ++ [cb].
Proof.
  intros H. destruct args as [|hint rest]; [simpl in H; lia|].
  destruct (exists_last (l := rest)) as (mid & cb & ->).
  - intros ->. simpl in H. lia.
  - eauto.
Qed.

Lemma pop_snoc (mid : list value) (cb : value) : pop (mid ++ [cb]) = (cb, mid).
Proof.
  unfold pop. f_equal.
  - apply List.last_last.
  - apply List.removelast_last.
Qed.

Lemma without_first_and_last_snoc (hint cb : value) (mid : list value) :
  without_first_and_last (hint :: mid ++ [cb]) = mid.
Proof.
  unfold without_first_and_last. cbn [skipn length].
  rewrite length_app. cbn [length].
  replace (S (length mid + 1) - 2)%nat with (length mid + 0)%nat by lia.
  apply take_app_length'. lia.
Qed.

Lemma proxyCB_routes (c : Client) (serviceName methodName : string)
    (hint cb : value) (mid : list value) (attach : PathItem) (invoke : value) :
  state c = Started ->
  proxyCB serviceName methodName (hint :: mid ++ [cb]) attach invoke c =
  (Normal tt, c,
   [(Started,
     RouterRoute (envelope attach serviceName methodName mid) hint (_servers c)
       (KRoute (envelope attach serviceName methodName mid) cb))]).
Proof.
  intros Hs. unfold proxyCB, bind, get_state. rewrite Hs. cbn [code].
  change (negb (STATE_STARTED =? STATE_STARTED)) with false. cbv iota.
  assert (Hlen : (Z.of_nat (length (hint :: mid ++ [cb])) <? 2) = false).
  { apply Z.ltb_ge. cbn [length]. rewrite length_app. cbn [length]. lia. }
  rewrite Hlen. cbn [shift]. rewrite pop_snoc.
  unfold get_servers, emit. rewrite Hs. reflexivity.
Qed.

(** C2: on a started client a stub call with at least two arguments builds
    an envelope whose [args] is the argument list without its first element
    (the routing hint) and its last element (the completion handler); with
    exactly two arguments [args] is empty. *)
Theorem envelope_args_strip (c : Client) (serviceName methodName : string)
    (args : list value) (attach : PathItem) (invoke : value) :
  state c = Started ->
  (2 <= length args)%nat ->
  exists hint mid cb,
    args = hint :: mid ++ [cb] /\
    without_first_and_last args = mid /\
    (length args = 2%nat -> mid = []) /\
    events (proxyCB serviceName methodName args attach invoke c) =
      [RouterRoute (envelope attach serviceName methodName mid) hint (_servers c)
         (KRoute (envelope attach serviceName methodName mid) cb)] /\
    envelope attach serviceName methodName mid =
      VObj [("namespace", VStr (namespace attach));
            ("serverType", VStr (serverType attach));
            ("service", VStr serviceName);
            ("method", VStr methodName);
            ("args", VArr (without_first_and_last args))].
Proof.
  intros Hs Hlen. destruct (two_or_more args Hlen) as (hint & mid & cb & ->).
  exists hint, mid, cb. rewrite without_first_and_last_snoc.
  repeat split.
  - cbn [length]. rewrite length_app. cbn [length]. intros H.
    destruct mid; [reflexivity | cbn [length] in H; lia].
  - unfold events, effects. rewrite proxyCB_routes by exact Hs. reflexivity.
Qed.

Lemma envelope_args_strip_witness :
  exists hint mid cb,
    [VNum 7; Demo.done] = hint :: mid ++ [cb] /\
    without_first_and_last [VNum 7; Demo.done] = mid /\
    (length [VNum 7; Demo.done] = 2%nat -> mid = []) /\
    events (proxyCB "chatRemote" "send" [VNum 7; Demo.done] Demo.chat VUndefined
              (Demo.client Started)) =
      [RouterRoute (envelope Demo.chat "chatRemote" "send" mid) hint
         (_servers (Demo.client Started))
         (KRoute (envelope Demo.chat "chatRemote" "send" mid) cb)] /\
    envelope Demo.chat "chatRemote" "send" mid =
      VObj [("namespace", VStr (namespace Demo.chat));
            ("serverType", VStr (serverType Demo.chat));
            ("service", VStr "chatRemote");
            ("method", VStr "send");
            ("args", VArr (without_first_and_last [VNum 7; Demo.done]))].
Proof.
  apply (envelope_args_strip (Demo.client Started) "chatRemote" "send"
           [VNum 7; Demo.done] Demo.chat VUndefined).
  - reflexivity.
  - simpl. lia.
Defined.

(** ** C4 *)

Lemma proxyCB_not_running (c : Client) (serviceName methodName : string)
    (args : list value) (attach : PathItem) (invoke : value) :
  state c <> Started ->
  proxyCB serviceName methodName args attach invoke c =
  (Throw not_running_proxy, c, []).
Proof.
  intros Hs. unfold proxyCB, bind, get_state, throw.
  rewrite (not_started_code _ Hs). reflexivity.
Qed.

(** C4: on a client that is not started, [rpcInvoke] and every call of a
    stub member throw at once; the client is left as it was and nothing is
    sent to the router or to the station (no effect at all is performed). *)
Theorem not_running_throws (c : Client) :
  state c <> Started ->
  (forall serverId msg cb,
      rpcInvoke serverId msg cb c =
      (Throw (VError "[pomelo-rpc] fail to do rpc invoke for client is not running"),
       c, [])) /\
  (forall serviceName methodName args attach invoke,
      proxyCB serviceName methodName args attach invoke c =
      (Throw (VError "[pomelo-rpc] fail to invoke rpc proxy for client is not running"),
       c, [])) /\
  (forall ns ty method args,
      exists e,
        stub_call ns ty method args c = (Throw e, c, []) /\
        (forall stub,
            lookup_stub (proxies c) ns ty = Some stub ->
            method ∈ origin stub ->
            e = VError "[pomelo-rpc] fail to invoke rpc proxy for client is not running")).
Proof.
  intros Hs. split; [|split].
  - intros. unfold rpcInvoke, bind, get_state, throw.
    rewrite (not_started_code _ Hs). reflexivity.
  - intros. apply proxyCB_not_running. exact Hs.
  - intros. unfold stub_call.
    destruct (lookup_stub (proxies c) ns ty) as [stub|].
    + destruct (bool_decide (method ∈ origin stub)) eqn:Hm.
      * rewrite proxyCB_not_running by exact Hs. eauto.
      * unfold throw. eexists. split; [reflexivity|].
        intros stub' [= <-] Hin. apply bool_decide_eq_false_1 in Hm. contradiction.
    + unfold throw. eexists. split; [reflexivity | discriminate].
Qed.

Lemma not_running_throws_witness :
  rpcInvoke (VStr "chat-server-1") (VObj []) Demo.done (Demo.client Inited) =
    (Throw (VError "[pomelo-rpc] fail to do rpc invoke for client is not running"),
     Demo.client Inited, []) /\
  proxyCB "chatRemote" "send" [VNum 7; Demo.done] Demo.chat VUndefined
      (Demo.client Closed) =
    (Throw (VError "[pomelo-rpc] fail to invoke rpc proxy for client is not running"),
     Demo.client Closed, []).
Proof.
  split.
  - apply (not_running_throws (Demo.client Inited)). discriminate.
  - apply (not_running_throws (Demo.client Closed)). discriminate.
Defined.

(** ** C5 *)

(** C5: on a started client a stub call with fewer than two arguments logs
    an error that names the namespace, the server type, the service and the
    method, and returns: it does not throw, it calls no completion handler,
    it does not reach the router (the log is its only effect) and it leaves
    the client as it was. *)
Theorem short_call_dropped (c : Client) (serviceName methodName : string)
    (args : list value) (attach : PathItem) (invoke : value)
    (station : value -> value -> value -> list value) :
  state c = Started ->
  (length args < 2)%nat ->
  let r := proxyCB serviceName methodName args attach invoke c in
  r = (Normal tt, c,
       [(Started,
         ConsoleError arity_format
           [VStr (namespace attach); VStr (serverType attach);
            VStr serviceName; VStr methodName])]) /\
  handler_calls station (events r) = [] /\
  filter (fun e => reaches_router e) (events r) = [].
Proof.
  intros Hs Hlen r.
  assert (Hr : r = (Normal tt, c,
       [(Started,
         ConsoleError arity_format
           [VStr (namespace attach); VStr (serverType attach);
            VStr serviceName; VStr methodName])])).
  { subst r. unfold proxyCB, bind, get_state, emit. rewrite Hs. cbn [code].
    change (negb (STATE_STARTED =? STATE_STARTED)) with false. cbv iota.
    assert (Hlt : (Z.of_nat (length args) <? 2) = true) by (apply Z.ltb_lt; lia).
    rewrite Hlt, Hs. reflexivity. }
  rewrite Hr. repeat split.
Qed.

Lemma short_call_dropped_witness :
  proxyCB "chatRemote" "send" [Demo.done] Demo.chat VUndefined (Demo.client Started) =
  (Normal tt, Demo.client Started,
   [(Started,
     ConsoleError arity_format
       [VStr "user"; VStr "chat"; VStr "chatRemote"; VStr "send"])]).
Proof.
  apply (short_call_dropped (Demo.client Started) "chatRemote" "send" [Demo.done]
           Demo.chat VUndefined echo_station).
  - reflexivity.
  - simpl. lia.
Defined.

(** ** C7 *)

(** C7: on a client whose state is above [STATE_INITED] (started or closed)
    [start] reports the error "rpc client has started." to the caller's
    handler before it returns, does not call the station and leaves the
    client, its state included, as it was. *)
Theorem start_again_rejected (c : Client) (cb : value) :
  code (state c) > STATE_INITED ->
  start cb c =
  (Normal tt, c, [(state c, InvokeCallback cb [VError "rpc client has started."])]) /\
  filter (fun e => reaches_station e) (events (start cb c)) = [].
Proof.
  intros Hs. apply Z.gt_lt, Z.gtb_lt in Hs.
  assert (H : start cb c =
    (Normal tt, c, [(state c, InvokeCallback cb [VError "rpc client has started."])])).
  { unfold start, bind, get_state, invokeCallback, emit. rewrite Hs. reflexivity. }
  split; [exact H | rewrite H; reflexivity].
Qed.

Lemma start_again_rejected_witness :
  start Demo.done (Demo.client Closed) =
  (Normal tt, Demo.client Closed,
   [(Closed, InvokeCallback Demo.done [VError "rpc client has started."])]).
Proof.
  apply (start_again_rejected (Demo.client Closed) Demo.done). reflexivity.
Defined.

(** ** C8 *)

(** C8: on a started client [stop(force)] sets the state to [Closed] and
    then calls the station's [stop] with the same [force] (the station is
    called when the state is already [Closed]); in any other state, the one
    a first [stop] leaves included, [stop] only prints a warning, whatever
    [force] is: the client is unchanged and the station is not called. *)
Theorem stop_closes_once (c : Client) (force : value) :
  (state c = Started ->
   stop force c = (Normal tt, with_state Closed c, [(Closed, StationStop force)])) /\
  (state c <> Started ->
   stop force c =
   (Normal tt, c, [(state c, ConsoleWarn "[pomelo-rpc] client is not running now.")])) /\
  (forall force',
     stop force' (client_after (stop force c)) =
     (Normal tt, client_after (stop force c),
      [(state (client_after (stop force c)),
        ConsoleWarn "[pomelo-rpc] client is not running now.")])).
Proof.
  assert (Hrun : state c = Started ->
    stop force c = (Normal tt, with_state Closed c, [(Closed, StationStop force)])).
  { intros Hs. unfold stop, bind, get_state, set_state, emit. rewrite Hs. reflexivity. }
  assert (Hidle : forall c' f, state c' <> Started ->
    stop f c' =
    (Normal tt, c', [(state c', ConsoleWarn "[pomelo-rpc] client is not running now.")])).
  { intros c' f Hs. unfold stop, bind, get_state, emit.
    rewrite (not_started_code _ Hs). reflexivity. }
  split; [exact Hrun | split; [apply Hidle |]].
  intros force'. apply Hidle.
  destruct (decide (state c = Started)) as [Hs|Hs].
  - rewrite (Hrun Hs). discriminate.
  - rewrite (Hidle c force Hs). exact Hs.
Qed.

Lemma stop_closes_once_witness :
  stop (VBool true) (Demo.client Started) =
    (Normal tt, Demo.client Closed, [(Closed, StationStop (VBool true))]) /\
  stop (VBool false) (Demo.client Inited) =
    (Normal tt, Demo.client Inited,
     [(Inited, ConsoleWarn "[pomelo-rpc] client is not running now.")]).
Proof.
  split.
  - apply (proj1 (stop_closes_once (Demo.client Started) (VBool true))).
    reflexivity.
  - apply (proj1 (proj2 (stop_closes_once (Demo.client Inited) (VBool false)))).
    discriminate.
Defined.

(** ** The registry build *)

Section RegistryBuild.

Variable discover : string -> value -> option (string * list string).
Variable context : value.

Lemma createNamespace_lookup (ns ns' : string) (reg : Registry) :
  createNamespace ns reg !! ns' =
  if decide (ns = ns') then Some (default ∅ (reg !! ns)) else reg !! ns'.
Proof. unfold createNamespace. apply lookup_insert. Qed.

Lemma createNamespace_keeps (ns ns' : string) (reg : Registry)
    (inner : gmap string Stub) :
  reg !! ns' = Some inner -> createNamespace ns reg !! ns' = Some inner.
Proof.
  intros H. rewrite createNamespace_lookup. case_decide; [subst|exact H].
  rewrite H. reflexivity.
Qed.

Lemma createNamespace_first_use (ns : string) (reg : Registry) :
  reg !! ns = None -> createNamespace ns reg !! ns = Some ∅.
Proof.
  intros H. rewrite createNamespace_lookup. rewrite decide_True by reflexivity.
  rewrite H. reflexivity.
Qed.

Lemma createNamespace_existing (ns : string) (reg : Registry) :
  is_Some (reg !! ns) -> createNamespace ns reg = reg.
Proof.
  intros [inner H]. unfold createNamespace. rewrite H. apply insert_id, H.
Qed.

Lemma createNamespace_idempotent (ns : string) (reg : Registry) :
  createNamespace ns (createNamespace ns reg) = createNamespace ns reg.
Proof.
  apply createNamespace_existing. rewrite createNamespace_lookup.
  rewrite decide_True by reflexivity. eauto.
Qed.

Lemma lookup_stub_createNamespace (ns ns' ty : string) (reg : Registry) :
  lookup_stub (createNamespace ns reg) ns' ty = lookup_stub reg ns' ty.
Proof.
  unfold lookup_stub. rewrite createNamespace_lookup.
  case_decide; [subst|reflexivity].
  destruct (reg !! ns'); [reflexivity | apply lookup_empty].
Qed.

(** What one turn of the loop leaves at [registry[ns][ty]]. *)
Lemma register_lookup (reg : Registry) (item : PathItem) (ns ty : string) :
  lookup_stub (register discover context reg item) ns ty =
  match Loader_load discover (path item) context item loadedCB with
  | Some m =>
      if decide (namespace item = ns /\ serverType item = ty) then Some m
      else lookup_stub reg ns ty
  | None => lookup_stub reg ns ty
  end.
Proof.
  unfold register.
  destruct (Loader_load discover (path item) context item loadedCB) as [m|];
    [|reflexivity].
  rewrite <- (lookup_stub_createNamespace (namespace item) ns ty reg).
  unfold lookup_stub. rewrite lookup_alter.
  destruct (decide (namespace item = ns)) as [Hns|Hns].
  - subst ns.
    destruct (createNamespace (namespace item) reg !! namespace item)
      as [inner|] eqn:Hin.
    + cbn. rewrite lookup_insert.
      destruct (decide (serverType item = ty)) as [Hty|Hty].
      * rewrite decide_True by (split; [reflexivity | exact Hty]). reflexivity.
      * rewrite decide_False by (intros [_ H]; exact (Hty H)). reflexivity.
    + rewrite createNamespace_lookup, decide_True in Hin by reflexivity.
      discriminate.
  - rewrite decide_False by (intros [H _]; exact (Hns H)). reflexivity.
Qed.

Lemma Loader_load_attach (item : PathItem) (m : Stub) :
  Loader_load discover (path item) context item loadedCB = Some m ->
  attach m = item.
Proof.
  unfold Loader_load. destruct (discover (path item) context) as [[name module]|];
    [|discriminate].
  intros [= <-]. reflexivity.
Qed.

Lemma keyed_empty : keyed ∅.
Proof. intros ns ty stub. unfold lookup_stub. rewrite lookup_empty. discriminate. Qed.

Lemma keyed_register (reg : Registry) (item : PathItem) :
  keyed reg -> keyed (register discover context reg item).
Proof.
  intros Hk ns ty stub. rewrite register_lookup.
  destruct (Loader_load discover (path item) context item loadedCB) as [m|] eqn:Hm;
    [|apply Hk].
  case_decide as Hd; [|apply Hk].
  intros [= <-]. rewrite (Loader_load_attach item m Hm). exact Hd.
Qed.

Lemma keyed_build (paths : list PathItem) (reg : Registry) :
  keyed reg -> keyed (build discover context paths reg).
Proof.
  revert reg. induction paths as [|item rest IH]; intros reg Hk; [exact Hk|].
  apply IH, keyed_register, Hk.
Qed.

Lemma register_never_removes (reg : Registry) (item : PathItem) (ns ty : string) :
  is_Some (lookup_stub reg ns ty) ->
  is_Some (lookup_stub (register discover context reg item) ns ty).
Proof.
  intros H. rewrite register_lookup.
  destruct (Loader_load discover (path item) context item loadedCB); [|exact H].
  case_decide; [eauto | exact H].
Qed.

Lemma register_keeps_other (reg : Registry) (item : PathItem) (ns ty : string) :
  (namespace item, serverType item) <> (ns, ty) ->
  lookup_stub (register discover context reg item) ns ty = lookup_stub reg ns ty.
Proof.
  intros H. rewrite register_lookup.
  destruct (Loader_load discover (path item) context item loadedCB); [|reflexivity].
  rewrite decide_False; [reflexivity|]. intros [<- <-]. apply H. reflexivity.
Qed.

Lemma build_never_removes (later : list PathItem) (reg : Registry) (ns ty : string) :
  is_Some (lookup_stub reg ns ty) ->
  is_Some (lookup_stub (build discover context later reg) ns ty).
Proof.
  revert reg. induction later as [|item rest IH]; intros reg H; [exact H|].
  apply IH, register_never_removes, H.
Qed.

Lemma build_keeps_other (later : list PathItem) (reg : Registry) (ns ty : string) :
  Forall (fun item => (namespace item, serverType item) <> (ns, ty)) later ->
  lookup_stub (build discover context later reg) ns ty = lookup_stub reg ns ty.
Proof.
  revert reg. induction later as [|item rest IH]; intros reg H; [reflexivity|].
  inversion H as [|? ? Hitem Hrest]; subst.
  cbn [build foldl]. change (foldl (register discover context) ?r rest)
    with (build discover context rest r).
  rewrite IH by exact Hrest. apply register_keeps_other, Hitem.
Qed.

End RegistryBuild.

Lemma proxyCB_keeps_client (serviceName methodName : string) (args : list value)
    (attach : PathItem) (invoke : value) (c : Client) :
  client_after (proxyCB serviceName methodName args attach invoke c) = c.
Proof.
  unfold proxyCB, bind, get_state, get_servers, emit, throw, client_after.
  destruct (negb (code (state c) =? STATE_STARTED)); [reflexivity|].
  destruct (Z.of_nat (length args) <? 2); [reflexivity|].
  destruct (shift args) as [routeParam args1]. destruct (pop args1) as [cb args2].
  reflexivity.
Qed.

Lemma stub_call_keeps_client (ns ty method : string) (args : list value)
    (c : Client) :
  client_after (stub_call ns ty method args c) = c.
Proof.
  unfold stub_call.
  destruct (lookup_stub (proxies c) ns ty) as [stub|];
    [destruct (bool_decide (method ∈ origin stub))|];
    rewrite ?proxyCB_keeps_client; reflexivity.
Qed.

(** No operation writes to any field of the client but [state]. *)
Lemma exec_only_state (op : Op) (c : Client) :
  client_after (exec op c) = with_state (state (client_after (exec op c))) c.
Proof.
  each_op op; cbn [exec].
  - unfold start, bind, get_state, invokeCallback, emit, client_after.
    destruct (code (state c) >? STATE_INITED); cbn; symmetry; apply with_state_same.
  - unfold stop, bind, get_state, set_state, emit, client_after.
    destruct (negb (code (state c) =? STATE_STARTED)); cbn;
      [symmetry; apply with_state_same | reflexivity].
  - unfold rpcInvoke, bind, get_state, emit, throw, client_after.
    destruct (negb (code (state c) =? STATE_STARTED)); cbn;
      symmetry; apply with_state_same.
  - cbn. symmetry; apply with_state_same.
  - cbn. symmetry; apply with_state_same.
  - rewrite stub_call_keeps_client. symmetry; apply with_state_same.
  - destruct k as [cb|msg cb]; cbn [resume].
    + unfold start_completion, bind, set_state, invokeCallback, emit, client_after.
      destruct (truthy (param 0 params)); cbn;
        [symmetry; apply with_state_same | reflexivity].
    + unfold route_completion, rpcInvoke, bind, get_state, invokeCallback, emit,
        throw, client_after.
      destruct (truthy (param 0 params)); cbn; [symmetry; apply with_state_same|].
      destruct (negb (code (state c) =? STATE_STARTED)); cbn;
        symmetry; apply with_state_same.
Qed.

Lemma exec_keeps_proxies (op : Op) (c : Client) :
  proxies (client_after (exec op c)) = proxies c.
Proof. rewrite exec_only_state. reflexivity. Qed.

Lemma run_keeps_proxies (ops : list Op) (c : Client) :
  proxies (run ops c) = proxies c.
Proof.
  revert c. induction ops as [|op rest IH]; intros c; [reflexivity|].
  cbn [run]. rewrite IH. apply exec_keeps_proxies.
Qed.

(** ** C1 *)

Lemma rpcInvoke_running (c : Client) (serverId msg cb : value) :
  state c = Started ->
  rpcInvoke serverId msg cb c =
  (Normal tt, c, [(Started, StationDispatch serverId msg VNull cb)]).
Proof.
  intros Hs. unfold rpcInvoke, bind, get_state, emit. rewrite Hs. cbn.
  rewrite Hs. reflexivity.
Qed.

Lemma route_completion_error (c : Client) (msg cb err serverId : value) :
  truthy err = true ->
  route_completion msg cb err serverId c =
  (Normal tt, c, [(state c, InvokeCallback cb [err])]).
Proof. intros He. unfold route_completion. rewrite He. reflexivity. Qed.

Lemma route_completion_stopped (c : Client) (msg cb err serverId : value) :
  truthy err = false ->
  state c <> Started ->
  route_completion msg cb err serverId c =
  (Throw (VError "[pomelo-rpc] fail to do rpc invoke for client is not running"),
   c, []).
Proof.
  intros He Hs. unfold route_completion, rpcInvoke, bind, get_state, throw.
  rewrite He, (not_started_code _ Hs). reflexivity.
Qed.

Lemma route_completion_resolved (c : Client) (msg cb err serverId : value) :
  truthy err = false ->
  state c = Started ->
  route_completion msg cb err serverId c =
  (Normal tt, c, [(Started, StationDispatch serverId msg VNull cb)]).
Proof.
  intros He Hs. unfold route_completion. rewrite He.
  apply rpcInvoke_running, Hs.
Qed.

(** C1: take a started client whose registry was built by [generateProxies],
    a router that resolves every call to [serverId] and a station that
    gives [(serverId, envelope)] back to the completion handler.  Calling
    [registry[ns][ty].method(hint, a, b, done)] returns normally and the
    only call of a completion handler is that of [done], with [serverId] and
    the envelope [{namespace: ns, serverType: ty, service: <the stub's
    service>, method: method, args: [a, b]}]. *)
Theorem round_trip (discover : string -> value -> option (string * list string))
    (paths : list PathItem) (context : value) (c : Client)
    (ns ty method : string) (stub : Stub) (hint a b done serverId : value) :
  generateProxies discover (Some paths) context = Normal (proxies c) ->
  state c = Started ->
  lookup_stub (proxies c) ns ty = Some stub ->
  method ∈ origin stub ->
  let r := routed (fixed_router serverId)
             (stub_call ns ty method [hint; a; b; done]) c in
  let msg := VObj [("namespace", VStr ns);
                   ("serverType", VStr ty);
                   ("service", VStr (service stub));
                   ("method", VStr method);
                   ("args", VArr [a; b])] in
  outcome r = Normal tt /\
  events r = [RouterRoute msg hint (_servers c) (KRoute msg done);
              StationDispatch serverId msg VNull done] /\
  handler_calls echo_station (events r) = [(done, [serverId; msg])].
Proof.
  intros Hbuild Hs Hstub Hmethod r msg.
  assert (Hkey : namespace (attach stub) = ns /\ serverType (attach stub) = ty).
  { apply (keyed_build discover context paths ∅ (keyed_empty)).
    injection Hbuild as Hbuild. rewrite Hbuild. exact Hstub. }
  destruct Hkey as [Hns Hty].
  assert (Hr : r = (Normal tt, c,
            [(Started, RouterRoute msg hint (_servers c) (KRoute msg done));
             (Started, StationDispatch serverId msg VNull done)])).
  { subst r. unfold routed, stub_call. rewrite Hstub.
    rewrite bool_decide_eq_true_2 by exact Hmethod.
    change [hint; a; b; done] with (hint :: [a; b] ++ [done]).
    rewrite (proxyCB_routes c (service stub) method hint done [a; b] (attach stub)
               VUndefined Hs).
    unfold envelope. rewrite Hns, Hty. fold msg.
    cbn [map snd answer_routes fixed_router resume param nth].
    unfold bind. rewrite route_completion_resolved by (reflexivity || exact Hs).
    reflexivity. }
  rewrite Hr. repeat split.
Qed.

Lemma round_trip_witness :
  let r := routed (fixed_router (VStr "chat-server-1"))
             (stub_call "user" "chat" "send"
                [VNum 7; VStr "hello"; VNum 42; Demo.done])
             (Demo.client Started) in
  let msg := VObj [("namespace", VStr "user");
                   ("serverType", VStr "chat");
                   ("service", VStr "chatRemote");
                   ("method", VStr "send");
                   ("args", VArr [VStr "hello"; VNum 42])] in
  outcome r = Normal tt /\
  events r = [RouterRoute msg (VNum 7) Demo.servers (KRoute msg Demo.done);
              StationDispatch (VStr "chat-server-1") msg VNull Demo.done] /\
  handler_calls echo_station (events r) = [(Demo.done, [VStr "chat-server-1"; msg])].
Proof.
  apply (round_trip Demo.discover [Demo.chat] VUndefined (Demo.client Started)
           "user" "chat" "send" (mkStub "chatRemote" ["send"; "kick"] Demo.chat)
           (VNum 7) (VStr "hello") (VNum 42) Demo.done (VStr "chat-server-1")).
  - reflexivity.
  - reflexivity.
  - vm_compute. reflexivity.
  - apply list_elem_of_here.
Defined.

(** ** C3 *)

(** C3, as the code has it: a stub call with at least two arguments on a
    started client hands one closure to the router and calls no handler
    itself.  When the router calls the closure with an error, the last
    argument of the call is invoked once, with that error, and the station
    is not reached.  When the router calls it with a server id while the
    client is still started, the handler is given to one [dispatch] of the
    station, which invokes it once with the outcome of the call.  When the
    router calls it with a server id and the client is no longer started,
    the closure throws the error of [rpcInvoke], performs no effect, and
    the handler is not invoked. *)
Theorem handler_called_once (c : Client) (serviceName methodName : string)
    (args : list value) (attach : PathItem) (invoke : value)
    (station : value -> value -> value -> list value) :
  state c = Started ->
  (2 <= length args)%nat ->
  exists hint msg cb,
    cb = List.last args VUndefined /\
    proxyCB serviceName methodName args attach invoke c =
      (Normal tt, c, [(Started, RouterRoute msg hint (_servers c) (KRoute msg cb))]) /\
    handler_calls station
      (events (proxyCB serviceName methodName args attach invoke c)) = [] /\
    (forall c' err serverId,
        truthy err = true ->
        let r := resume (KRoute msg cb) [err; serverId] c' in
        r = (Normal tt, c', [(state c', InvokeCallback cb [err])]) /\
        handler_calls station (events r) = [(cb, [err])] /\
        filter (fun e => reaches_station e) (events r) = []) /\
    (forall c' err serverId,
        truthy err = false ->
        state c' = Started ->
        let r := resume (KRoute msg cb) [err; serverId] c' in
        r = (Normal tt, c', [(Started, StationDispatch serverId msg VNull cb)]) /\
        handler_calls station (events r) = [(cb, station serverId msg VNull)]) /\
    (forall c' err serverId,
        truthy err = false ->
        state c' <> Started ->
        let r := resume (KRoute msg cb) [err; serverId] c' in
        r = (Throw (VError "[pomelo-rpc] fail to do rpc invoke for client is not running"),
             c', []) /\
        handler_calls station (events r) = []).
Proof.
  intros Hs Hlen. destruct (two_or_more args Hlen) as (hint & mid & cb & ->).
  exists hint, (envelope attach serviceName methodName mid), cb.
  rewrite (proxyCB_routes c serviceName methodName hint cb mid attach invoke Hs).
  split; [|split; [reflexivity | split; [reflexivity | split; [|split]]]].
  - change (hint :: mid ++ [cb]) with ([hint] ++ (mid ++ [cb])).
    rewrite app_assoc. symmetry. apply List.last_last.
  - intros c' err serverId He r. subst r. cbn [resume param nth].
    rewrite route_completion_error by exact He. repeat split.
  - intros c' err serverId He Hs' r. subst r. cbn [resume param nth].
    rewrite route_completion_resolved by assumption. repeat split.
  - intros c' err serverId He Hs' r. subst r. cbn [resume param nth].
    rewrite route_completion_stopped by assumption. repeat split.
Qed.

Lemma handler_called_once_witness :
  exists hint msg cb,
    cb = List.last [VNum 7; Demo.done] VUndefined /\
    proxyCB "chatRemote" "send" [VNum 7; Demo.done] Demo.chat VUndefined
        (Demo.client Started) =
      (Normal tt, Demo.client Started,
       [(Started, RouterRoute msg hint (_servers (Demo.client Started))
                    (KRoute msg cb))]) /\
    resume (KRoute msg cb) [VError "no server"; VUndefined] (Demo.client Closed) =
      (Normal tt, Demo.client Closed,
       [(Closed, InvokeCallback cb [VError "no server"])]) /\
    resume (KRoute msg cb) [VNull; VStr "chat-server-1"] (Demo.client Started) =
      (Normal tt, Demo.client Started,
       [(Started, StationDispatch (VStr "chat-server-1") msg VNull cb)]) /\
    resume (KRoute msg cb) [VNull; VStr "chat-server-1"] (Demo.client Closed) =
      (Throw (VError "[pomelo-rpc] fail to do rpc invoke for client is not running"),
       Demo.client Closed, []).
Proof.
  destruct (handler_called_once (Demo.client Started) "chatRemote" "send"
              [VNum 7; Demo.done] Demo.chat VUndefined echo_station)
    as (hint & msg & cb & Hcb & Hcall & _ & Herr & Hok & Hstopped).
  - reflexivity.
  - simpl. lia.
  - exists hint, msg, cb.
    split; [exact Hcb | split; [exact Hcall | split; [|split]]].
    + apply (Herr (Demo.client Closed) (VError "no server") VUndefined).
      reflexivity.
    + apply (Hok (Demo.client Started) VNull (VStr "chat-server-1"));
        reflexivity.
    + apply (Hstopped (Demo.client Closed) VNull (VStr "chat-server-1"));
        [reflexivity | discriminate].
Defined.

(** C3, as stated, fails when the client is stopped between the call and
    the completion of the routing: the routing closure then throws out of
    [rpcInvoke] and the handler of the call is never invoked. *)
Lemma handler_lost_after_stop :
  let msg := envelope Demo.chat "chatRemote" "send" [] in
  let r1 := stub_call "user" "chat" "send" [VNum 7; Demo.done] (Demo.client Started) in
  let r2 := stop (VBool true) (client_after r1) in
  let r3 := resume (KRoute msg Demo.done) [VNull; VStr "chat-server-1"]
              (client_after r2) in
  r1 = (Normal tt, Demo.client Started,
        [(Started, RouterRoute msg (VNum 7) Demo.servers (KRoute msg Demo.done))]) /\
  r2 = (Normal tt, Demo.client Closed, [(Closed, StationStop (VBool true))]) /\
  r3 = (Throw (VError "[pomelo-rpc] fail to do rpc invoke for client is not running"),
        Demo.client Closed, []) /\
  handler_calls echo_station (events r1 ++ events r2 ++ events r3) = [].
Proof. vm_compute. repeat split. Qed.

(** ** C6 *)

(** C6 on the code: [create] runs no validation.  With an empty [paths] it
    returns a client, in state [Inited] and with an empty registry; with
    [servers] missing it returns a client as well.  [checkParams], which
    rejects both inputs, is never called. *)
Theorem create_without_validation (function_length : nat -> Z) :
  let no_paths :=
    mkOpts (Some []) Demo.servers VNull VUndefined VUndefined VUndefined VUndefined in
  let no_servers :=
    mkOpts (Some [Demo.chat]) VUndefined VNull VUndefined VUndefined VUndefined
      VUndefined in
  create Demo.discover Demo.router_module (Some no_paths) =
    (Normal (mkClient Demo.servers VNull Demo.router_module VUndefined ∅ Inited),
     [StationCreate Demo.servers VUndefined]) /\
  checkParams (VFun 3) (VFun 4) function_length (Some no_paths) =
    Throw (VError "opts.paths should not be empty.") /\
  create Demo.discover Demo.router_module (Some no_servers) =
    (Normal (mkClient VUndefined VNull Demo.router_module VUndefined Demo.registry
               Inited),
     [StationCreate VUndefined VUndefined]) /\
  checkParams (VFun 3) (VFun 4) function_length (Some no_servers) =
    Throw (VError "opts.servers should not be empty.").
Proof. repeat split. Qed.

(** ** C9 *)

(** The state an operation leaves. *)
Lemma exec_state (op : Op) (c : Client) :
  state (client_after (exec op c)) =
  match op with
  | CallStop _ => if code (state c) =? STATE_STARTED then Closed else state c
  | CallBack (KStart _) params =>
      if truthy (param 0 params) then state c else Started
  | _ => state c
  end.
Proof.
  each_op op; cbn [exec].
  - unfold start, bind, get_state, invokeCallback, emit, client_after.
    destruct (code (state c) >? STATE_INITED); reflexivity.
  - unfold stop, bind, get_state, set_state, emit, client_after.
    destruct (code (state c) =? STATE_STARTED); reflexivity.
  - unfold rpcInvoke, bind, get_state, emit, throw, client_after.
    destruct (negb (code (state c) =? STATE_STARTED)); reflexivity.
  - reflexivity.
  - reflexivity.
  - rewrite stub_call_keeps_client. reflexivity.
  - destruct k as [cb|msg cb]; cbn [resume].
    + unfold start_completion, bind, set_state, invokeCallback, emit, client_after.
      destruct (truthy (param 0 params)); reflexivity.
    + unfold route_completion, rpcInvoke, bind, get_state, invokeCallback, emit,
        throw, client_after.
      destruct (truthy (param 0 params)); [reflexivity|].
      destruct (negb (code (state c) =? STATE_STARTED)); reflexivity.
Qed.

Lemma exec_forward (op : Op) (c : Client) :
  late_start op c = false ->
  code (state c) <= code (state (client_after (exec op c))).
Proof.
  intros Hlate. rewrite exec_state.
  each_op op; try lia.
  - destruct (code (state c) =? STATE_STARTED) eqn:Hs; [|lia].
    apply Z.eqb_eq in Hs. rewrite Hs. cbv. discriminate.
  - destruct k as [cb|msg cb]; [|lia].
    cbn [late_start] in Hlate.
    destruct (truthy (param 0 params)); [lia|].
    cbn [negb andb] in Hlate. apply Z.eqb_neq in Hlate.
    destruct (state c); cbv in *; congruence.
Qed.

Lemma visited_forward (ops : list Op) (c : Client) :
  no_late_start ops c -> forward (visited ops c).
Proof.
  revert c. induction ops as [|op rest IH]; intros c H; [exact I|].
  destruct H as [Hop Hrest]. cbn [visited].
  specialize (IH _ Hrest). destruct rest as [|op' rest'].
  - cbn. split; [apply exec_forward, Hop | exact I].
  - cbn [visited] in IH |- *. cbn [forward].
    split; [apply exec_forward, Hop | exact IH].
Qed.

(** C9, as the code has it: a client is created in [Inited]; an operation
    changes the state only in two ways, to [Started] when the station
    reports the success of a [start] and to [Closed] by a [stop] on a
    started client; and over any sequence of operations in which the
    station reports no success of a [start] to a client that is already
    closed, the state never goes back. *)
Theorem state_moves_forward (ops : list Op) (c : Client) :
  no_late_start ops c ->
  forward (visited ops c) /\
  (forall discover router_module opts c0 es,
      create discover router_module opts = (Normal c0, es) -> state c0 = Inited) /\
  (forall op c1,
      let c2 := client_after (exec op c1) in
      state c2 = state c1 \/
      (state c2 = Started /\
       exists cb params,
         op = CallBack (KStart cb) params /\ truthy (param 0 params) = false) \/
      (state c2 = Closed /\ state c1 = Started /\ exists force, op = CallStop force)).
Proof.
  intros H. split; [apply visited_forward, H | split].
  - intros discover router_module opts c0 es. unfold create, Client_new.
    destruct opts as [o|]; [|discriminate].
    destruct (generateProxies discover (opt_paths o) VUndefined); [|discriminate].
    intros [= <- _]. reflexivity.
  - intros op c1 c2. subst c2. rewrite exec_state.
    each_op op; try (left; reflexivity).
    + destruct (code (state c1) =? STATE_STARTED) eqn:Hs; [|left; reflexivity].
      right. right. split; [reflexivity | split; [|eauto]].
      apply Z.eqb_eq in Hs. destruct (state c1); cbv in Hs; congruence.
    + destruct k as [cb|msg cb]; [|left; reflexivity].
      destruct (truthy (param 0 params)) eqn:He; [left; reflexivity|].
      right. left. split; [reflexivity | eauto].
Qed.

Lemma state_moves_forward_witness :
  forward
    (visited [CallStart Demo.done; CallStop (VBool false);
              CallBack (KStart Demo.done) [];
              CallStub "user" "chat" "send" [VNum 7; Demo.done2];
              CallStart Demo.done2; CallStop (VBool true); CallStop (VBool true)]
       (Demo.client Inited)).
Proof.
  apply (state_moves_forward
           [CallStart Demo.done; CallStop (VBool false);
            CallBack (KStart Demo.done) [];
            CallStub "user" "chat" "send" [VNum 7; Demo.done2];
            CallStart Demo.done2; CallStop (VBool true); CallStop (VBool true)]
           (Demo.client Inited)).
  vm_compute. repeat split.
Defined.

(** C9, as stated, fails: two [start] calls made while the client is still
    [Inited] both reach the station; when the station reports the first
    success, the client is stopped, and the station then reports the second
    success, the state goes from [Closed] back to [Started]. *)
Lemma state_regresses_after_second_start :
  let ops := [CallStart Demo.done; CallStart Demo.done2;
              CallBack (KStart Demo.done) []; CallStop (VBool true);
              CallBack (KStart Demo.done2) []] in
  create Demo.discover Demo.router_module (Some Demo.opts) =
    (Normal (Demo.client Inited), [StationCreate Demo.servers VUndefined]) /\
  trace ops (Demo.client Inited) =
    [(Inited, StationStart (KStart Demo.done));
     (Inited, StationStart (KStart Demo.done2));
     (Started, InvokeCallback Demo.done []);
     (Closed, StationStop (VBool true));
     (Started, InvokeCallback Demo.done2 [])] /\
  visited ops (Demo.client Inited) =
    [Inited; Inited; Inited; Started; Closed; Started] /\
  ~ forward (visited ops (Demo.client Inited)).
Proof.
  vm_compute. repeat split. intros (_ & _ & _ & _ & H & _). apply H. reflexivity.
Qed.

(** ** C10 *)

(** C10, as the code has it: [createNamespace] is idempotent, creates an
    empty mapping on first use and keeps every namespace that exists; the
    build pass never removes the entry at [registry[ns][ty]] and leaves it
    as it is over later descriptors that are not for the pair [(ns, ty)];
    a later descriptor for the same pair whose path yields a module
    replaces it; after the pass no operation on the client changes the
    registry. *)
Theorem registry_additive
    (discover : string -> value -> option (string * list string))
    (context : value) :
  (forall ns reg,
      createNamespace ns (createNamespace ns reg) = createNamespace ns reg) /\
  (forall ns (reg : Registry), reg !! ns = None -> createNamespace ns reg !! ns = Some ∅) /\
  (forall ns ns' (reg : Registry) inner,
      reg !! ns' = Some inner -> createNamespace ns reg !! ns' = Some inner) /\
  (forall later reg ns ty,
      is_Some (lookup_stub reg ns ty) ->
      is_Some (lookup_stub (build discover context later reg) ns ty)) /\
  (forall later reg ns ty,
      Forall (fun item => (namespace item, serverType item) <> (ns, ty)) later ->
      lookup_stub (build discover context later reg) ns ty = lookup_stub reg ns ty) /\
  (forall reg item m,
      Loader_load discover (path item) context item loadedCB = Some m ->
      lookup_stub (register discover context reg item)
        (namespace item) (serverType item) = Some m) /\
  (forall ops c, proxies (run ops c) = proxies c).
Proof.
  split; [|split; [|split; [|split; [|split; [|split]]]]].
  - intros. apply createNamespace_idempotent.
  - intros. apply createNamespace_first_use. assumption.
  - intros. apply createNamespace_keeps. assumption.
  - intros. apply build_never_removes. assumption.
  - intros. apply build_keeps_other. assumption.
  - intros reg item m Hm. rewrite register_lookup, Hm.
    rewrite decide_True by (split; reflexivity). reflexivity.
  - intros. apply run_keeps_proxies.
Qed.

Lemma registry_additive_witness :
  createNamespace "user" Demo.registry !! "user" = Demo.registry !! "user" /\
  is_Some (lookup_stub
             (build Demo.discover VUndefined [Demo.chat2; Demo.gone] Demo.registry)
             "user" "chat") /\
  lookup_stub (build Demo.discover VUndefined [Demo.gone] Demo.registry)
    "user" "chat" = lookup_stub Demo.registry "user" "chat".
Proof.
  destruct (registry_additive Demo.discover VUndefined)
    as (_ & _ & Hkeep & Hstay & Hother & _ & _).
  split; [|split].
  - rewrite (Hkeep "user" "user" Demo.registry
               {["chat" := mkStub "chatRemote" ["send"; "kick"] Demo.chat]}).
    + vm_compute. reflexivity.
    + vm_compute. reflexivity.
  - apply Hstay. vm_compute. eauto.
  - apply Hother. repeat constructor. discriminate.
Defined.

(** C10, as stated, fails: a later descriptor with the namespace and the
    server type of an earlier one replaces the stub the earlier one stored. *)
Lemma later_descriptor_replaces_stub :
  lookup_stub (build Demo.discover VUndefined [Demo.chat] ∅) "user" "chat" =
    Some (mkStub "chatRemote" ["send"; "kick"] Demo.chat) /\
  lookup_stub (build Demo.discover VUndefined [Demo.chat; Demo.chat2] ∅)
    "user" "chat" =
    Some (mkStub "roomRemote" ["join"] Demo.chat2) /\
  lookup_stub (build Demo.discover VUndefined [Demo.chat; Demo.chat2] ∅)
    "user" "chat" <>
  lookup_stub (build Demo.discover VUndefined [Demo.chat] ∅) "user" "chat".
Proof. vm_compute. repeat split. discriminate. Qed.

(** * Further properties of the client *)

(** ** Start, its completion and stop *)

Lemma start_inited (c : Client) (cb : value) :
  state c = Inited ->
  start cb c = (Normal tt, c, [(Inited, StationStart (KStart cb))]).
Proof.
  intros Hs. unfold start, bind, get_state, emit. rewrite Hs. cbn.
  rewrite Hs. reflexivity.
Qed.

Lemma start_completion_ok (c : Client) (cb err : value) :
  truthy err = false ->
  start_completion cb err c =
  (Normal tt, with_state Started c, [(Started, InvokeCallback cb [])]).
Proof. intros He. unfold start_completion. rewrite He. reflexivity. Qed.

Lemma start_completion_failed (c : Client) (cb err : value) :
  truthy err = true ->
  start_completion cb err c =
  (Normal tt, c,
   [(state c, ConsoleErrorStack "[pomelo-rpc] client start fail for " err);
    (state c, InvokeCallback cb [err])]).
Proof. intros He. unfold start_completion. rewrite He. reflexivity. Qed.

Lemma stop_not_running (c : Client) (force : value) :
  state c <> Started ->
  stop force c =
  (Normal tt, c, [(state c, ConsoleWarn "[pomelo-rpc] client is not running now.")]).
Proof.
  intros Hs. unfold stop, bind, get_state, emit.
  rewrite (not_started_code _ Hs). reflexivity.
Qed.

(** X1: a [start] on a client in state [Inited] followed by the station's
    report of success: the station gets one [start], the state becomes
    [Started], and the caller's handler is invoked once, without arguments,
    when the state is already [Started]. *)
Theorem start_then_success (c : Client) (cb : value) (params : list value) :
  state c = Inited ->
  truthy (param 0 params) = false ->
  trace [CallStart cb; CallBack (KStart cb) params] c =
    [(Inited, StationStart (KStart cb)); (Started, InvokeCallback cb [])] /\
  run [CallStart cb; CallBack (KStart cb) params] c = with_state Started c.
Proof.
  intros Hs He. cbn [trace run exec resume].
  rewrite (start_inited c cb Hs). unfold effects, client_after. cbn [fst snd].
  rewrite (start_completion_ok c cb _ He). split; reflexivity.
Qed.

Lemma start_then_success_witness :
  trace [CallStart Demo.done; CallBack (KStart Demo.done) []] (Demo.client Inited) =
    [(Inited, StationStart (KStart Demo.done)); (Started, InvokeCallback Demo.done [])] /\
  run [CallStart Demo.done; CallBack (KStart Demo.done) []] (Demo.client Inited) =
    Demo.client Started.
Proof.
  apply (start_then_success (Demo.client Inited) Demo.done []); reflexivity.
Defined.

(** X2: when the station reports the failure of a [start],
    [console.error] is called once with the single string made of the
    prefix "[pomelo-rpc] client start fail for " and the [stack] property
    of the error, the error itself is then given unchanged to the caller's
    handler, the client stays as it was, in [Inited], and a further [start]
    is sent to the station again. *)
Theorem start_failure_allows_retry (c : Client) (cb cb' err : value)
    (more : list value) :
  state c = Inited ->
  truthy err = true ->
  trace [CallStart cb; CallBack (KStart cb) (err :: more); CallStart cb'] c =
    [(Inited, StationStart (KStart cb));
     (Inited, ConsoleErrorStack "[pomelo-rpc] client start fail for " err);
     (Inited, InvokeCallback cb [err]);
     (Inited, StationStart (KStart cb'))] /\
  run [CallStart cb; CallBack (KStart cb) (err :: more); CallStart cb'] c = c.
Proof.
  intros Hs He. cbn [trace run exec resume param nth].
  rewrite (start_inited c cb Hs). unfold effects, client_after. cbn [fst snd].
  rewrite (start_completion_failed c cb err He). cbn [fst snd].
  rewrite (start_inited c cb' Hs), Hs. split; reflexivity.
Qed.

Lemma start_failure_allows_retry_witness :
  trace [CallStart Demo.done; CallBack (KStart Demo.done) [VError "connect fail"];
         CallStart Demo.done2] (Demo.client Inited) =
    [(Inited, StationStart (KStart Demo.done));
     (Inited, ConsoleErrorStack "[pomelo-rpc] client start fail for "
                (VError "connect fail"));
     (Inited, InvokeCallback Demo.done [VError "connect fail"]);
     (Inited, StationStart (KStart Demo.done2))] /\
  run [CallStart Demo.done; CallBack (KStart Demo.done) [VError "connect fail"];
       CallStart Demo.done2] (Demo.client Inited) = Demo.client Inited.
Proof.
  apply (start_failure_allows_retry (Demo.client Inited) Demo.done Demo.done2
           (VError "connect fail") []); reflexivity.
Defined.

(** X3: a [stop] made while a [start] is pending is lost: it only prints
    the warning, the station's [stop] is not called, and when the station
    then reports the success of the [start] the client is [Started]. *)
Theorem stop_while_starting_is_lost (c : Client) (cb force : value)
    (params : list value) :
  state c = Inited ->
  truthy (param 0 params) = false ->
  trace [CallStart cb; CallStop force; CallBack (KStart cb) params] c =
    [(Inited, StationStart (KStart cb));
     (Inited, ConsoleWarn "[pomelo-rpc] client is not running now.");
     (Started, InvokeCallback cb [])] /\
  state (run [CallStart cb; CallStop force; CallBack (KStart cb) params] c) = Started.
Proof.
  intros Hs He. cbn [trace run exec resume].
  rewrite (start_inited c cb Hs). unfold effects, client_after. cbn [fst snd].
  rewrite (stop_not_running c force) by (rewrite Hs; discriminate).
  cbn [fst snd]. rewrite (start_completion_ok c cb _ He), Hs. split; reflexivity.
Qed.

Lemma stop_while_starting_is_lost_witness :
  state (run [CallStart Demo.done; CallStop (VBool true);
              CallBack (KStart Demo.done) []] (Demo.client Inited)) = Started.
Proof.
  apply (stop_while_starting_is_lost (Demo.client Inited) Demo.done (VBool true) []);
    reflexivity.
Defined.

(** X4: [Closed] is final for the client's own methods: over any sequence
    of operations in which the station reports no success of a [start] to
    the closed client, a closed client stays closed; no [start], [stop],
    [rpcInvoke], stub call or filter registration reopens it. *)
Theorem closed_is_final (ops : list Op) (c : Client) :
  state c = Closed ->
  no_late_start ops c ->
  state (run ops c) = Closed /\
  Forall (fun s => s = Closed) (visited ops c).
Proof.
  revert c. induction ops as [|op rest IH]; intros c Hs Hno.
  - split; [exact Hs | constructor; [exact Hs | constructor]].
  - destruct Hno as [Hop Hrest].
    assert (Hnext : state (client_after (exec op c)) = Closed).
    { rewrite exec_state.
      each_op op; try exact Hs.
      - rewrite Hs. reflexivity.
      - destruct k as [cb|msg cb]; [|exact Hs].
        cbn [late_start] in Hop. rewrite Hs in Hop |- *.
        destruct (truthy (param 0 params)); [reflexivity | discriminate]. }
    destruct (IH _ Hnext Hrest) as [Hrun Hall].
    split; [exact Hrun | constructor; [exact Hs | exact Hall]].
Qed.

Lemma closed_is_final_witness :
  state (run [CallStart Demo.done; CallStop (VBool false);
              CallRpcInvoke (VStr "chat-server-1") (VObj []) Demo.done;
              CallStub "user" "chat" "send" [VNum 7; Demo.done];
              CallBack (KStart Demo.done2) [VError "late failure"];
              CallBefore (VFun 5)] (Demo.client Closed)) = Closed.
Proof.
  apply (closed_is_final
           [CallStart Demo.done; CallStop (VBool false);
            CallRpcInvoke (VStr "chat-server-1") (VObj []) Demo.done;
            CallStub "user" "chat" "send" [VNum 7; Demo.done];
            CallBack (KStart Demo.done2) [VError "late failure"];
            CallBefore (VFun 5)] (Demo.client Closed)).
  - reflexivity.
  - vm_compute. repeat split.
Defined.

(** ** Filter registrations *)

Lemma filter_keeps_all {A} (f : A -> bool) (l : list A) :
  Forall (fun x => f x = true) l -> List.filter f l = l.
Proof.
  induction 1 as [|x l Hx _ IH]; [reflexivity|].
  cbn [List.filter]. rewrite Hx, IH. reflexivity.
Qed.

Lemma filter_drops_all {A} (f : A -> bool) (l : list A) :
  Forall (fun x => negb (f x) = true) l -> List.filter f l = [].
Proof.
  induction 1 as [|x l Hx _ IH]; [reflexivity|].
  cbn [List.filter]. apply negb_true_iff in Hx. rewrite Hx. exact IH.
Qed.

Lemma exec_filter_op (op : Op) (c : Client) :
  is_filter_op op = true ->
  exec op c = (Normal tt, c, map (fun e => (state c, e)) (registration op)).
Proof. each_op op; try discriminate; intros _; reflexivity. Qed.

Lemma registration_filter_events (op : Op) (c : Client) :
  List.filter is_filter_event (map (fun e => (state c, e)) (registration op)) =
    map (fun e => (state c, e)) (registration op) /\
  List.filter (fun e => negb (is_filter_event e))
    (map (fun e => (state c, e)) (registration op)) = [].
Proof. each_op op; split; reflexivity. Qed.

Lemma exec_other_op_quiet (op : Op) (c : Client) :
  is_filter_op op = false ->
  Forall (fun e => negb (is_filter_event e) = true) (effects (exec op c)).
Proof.
  intros Hop.
  each_op op; try discriminate; cbn [exec].
  - unfold start, bind, get_state, invokeCallback, emit, effects.
    destruct (code (state c) >? STATE_INITED); repeat constructor.
  - unfold stop, bind, get_state, set_state, emit, effects.
    destruct (negb (code (state c) =? STATE_STARTED)); repeat constructor.
  - unfold rpcInvoke, bind, get_state, emit, throw, effects.
    destruct (negb (code (state c) =? STATE_STARTED)); repeat constructor.
  - unfold stub_call, proxyCB, bind, get_state, get_servers, emit, throw, effects.
    destruct (lookup_stub (proxies c) ns ty) as [stub|]; [|constructor].
    destruct (bool_decide (method ∈ origin stub)); [|constructor].
    destruct (negb (code (state c) =? STATE_STARTED)); [constructor|].
    destruct (Z.of_nat (length args) <? 2); [repeat constructor|].
    destruct (shift args) as [routeParam args1].
    destruct (pop args1) as [cb args2]. repeat constructor.
  - destruct k as [cb|msg cb]; cbn [resume].
    + unfold start_completion, bind, set_state, invokeCallback, emit, effects.
      destruct (truthy (param 0 params)); repeat constructor.
    + unfold route_completion, rpcInvoke, bind, get_state, invokeCallback, emit,
        throw, effects.
      destruct (truthy (param 0 params)); [repeat constructor|].
      destruct (negb (code (state c) =? STATE_STARTED)); repeat constructor.
Qed.

Lemma map_snd_stamp (st : ClientState) (l : list Event) :
  map snd (map (fun e => (st, e)) l) = l.
Proof. induction l as [|e l IH]; [reflexivity|]. cbn. rewrite IH. reflexivity. Qed.

Lemma registration_other_op (op : Op) :
  is_filter_op op = false -> registration op = [].
Proof. each_op op; try discriminate; reflexivity. Qed.

(** X5: [before] and [after] only delegate, in every state of the client:
    each returns normally, leaves the client as it was and calls the
    station's [before] or [after] once with the filter it was given.  So
    over any sequence of operations the station receives exactly the
    registrations made, in the order they were made, and taking the
    registrations out of the sequence changes neither the client the
    sequence ends in nor any other effect. *)
Theorem filters_only_delegate (ops : list Op) (c : Client) :
  (forall filter c',
      before filter c' = (Normal tt, c', [(state c', StationBefore filter)])) /\
  (forall filter c',
      after filter c' = (Normal tt, c', [(state c', StationAfter filter)])) /\
  map snd (List.filter is_filter_event (trace ops c)) = flat_map registration ops /\
  run (List.filter (fun op => negb (is_filter_op op)) ops) c = run ops c /\
  trace (List.filter (fun op => negb (is_filter_op op)) ops) c =
    List.filter (fun e => negb (is_filter_event e)) (trace ops c).
Proof.
  split; [reflexivity | split; [reflexivity|]].
  revert c. induction ops as [|op rest IH]; intros c; [repeat split|].
  cbn [List.filter trace run flat_map]. rewrite !List.filter_app, map_app.
  destruct (is_filter_op op) eqn:Hop; cbn [negb].
  - rewrite (exec_filter_op op c Hop). unfold effects, client_after. cbn [fst snd].
    destruct (registration_filter_events op c) as [Hin Hout].
    rewrite Hin, Hout, map_snd_stamp.
    destruct (IH c) as (Hsent & Hrun & Htrace).
    split; [f_equal; exact Hsent | split; [exact Hrun | exact Htrace]].
  - cbn [trace run].
    rewrite (filter_keeps_all _ _ (exec_other_op_quiet op c Hop)).
    rewrite (filter_drops_all _ _ (exec_other_op_quiet op c Hop)).
    rewrite (registration_other_op op Hop).
    destruct (IH (client_after (exec op c))) as (Hsent & Hrun & Htrace).
    split; [exact Hsent | split; [exact Hrun | f_equal; exact Htrace]].
Qed.

(** ** A router that answers at once *)

(** X6: with a router that calls the routing closure once before [route]
    returns, whatever it reports, a stub call with at least two arguments
    on a started client returns normally, leaves the client as it was and
    leads to exactly one invocation of a completion handler: that of the
    last argument of the call. *)
Theorem answered_call_reaches_handler_once
    (reply : value -> value -> value -> list value)
    (station : value -> value -> value -> list value)
    (c : Client) (serviceName methodName : string) (args : list value)
    (attach : PathItem) (invoke : value) :
  state c = Started ->
  (2 <= length args)%nat ->
  let r := routed reply (proxyCB serviceName methodName args attach invoke) c in
  outcome r = Normal tt /\
  client_after r = c /\
  exists results,
    handler_calls station (events r) = [(List.last args VUndefined, results)].
Proof.
  intros Hs Hlen r. destruct (two_or_more args Hlen) as (hint & mid & cb & ->).
  assert (Hlast : List.last (hint :: mid ++ [cb]) VUndefined = cb).
  { change (hint :: mid ++ [cb]) with ([hint] ++ (mid ++ [cb])).
    rewrite app_assoc. apply List.last_last. }
  rewrite Hlast. subst r. unfold routed.
  rewrite (proxyCB_routes c serviceName methodName hint cb mid attach invoke Hs).
  cbn [map snd answer_routes resume]. unfold bind.
  set (msg := envelope attach serviceName methodName mid).
  set (answer := reply msg hint (_servers c)).
  destruct (truthy (param 0 answer)) eqn:He.
  - rewrite (route_completion_error c msg cb _ (param 1 answer) He).
    repeat split. eexists. reflexivity.
  - rewrite (route_completion_resolved c msg cb _ (param 1 answer) He Hs).
    repeat split. eexists. reflexivity.
Qed.

Lemma answered_call_reaches_handler_once_witness :
  let r := routed (fun _ _ _ => [VError "no server"])
             (proxyCB "chatRemote" "send" [VNum 7; VStr "hello"; Demo.done]
                Demo.chat VUndefined) (Demo.client Started) in
  outcome r = Normal tt /\
  client_after r = Demo.client Started /\
  exists results,
    handler_calls echo_station (events r) =
    [(List.last [VNum 7; VStr "hello"; Demo.done] VUndefined, results)].
Proof.
  apply (answered_call_reaches_handler_once (fun _ _ _ => [VError "no server"])
           echo_station (Demo.client Started) "chatRemote" "send"
           [VNum 7; VStr "hello"; Demo.done] Demo.chat VUndefined).
  - reflexivity.
  - simpl. lia.
Defined.

(** ** What the build pass leaves in the registry *)

Section RegistryContents.

Variable discover : string -> value -> option (string * list string).
Variable context : value.

Lemma build_cons (item : PathItem) (rest : list PathItem) (reg : Registry) :
  build discover context (item :: rest) reg =
  build discover context rest (register discover context reg item).
Proof. reflexivity. Qed.

Lemma register_lookup_for (reg : Registry) (item : PathItem) (ns ty : string) :
  lookup_stub (register discover context reg item) ns ty =
  match loaded_for discover context ns ty item with
  | Some m => Some m
  | None => lookup_stub reg ns ty
  end.
Proof.
  rewrite register_lookup. unfold loaded_for.
  destruct (decide (namespace item = ns /\ serverType item = ty)) as [H|H].
  - rewrite bool_decide_eq_true_2 by exact H. reflexivity.
  - rewrite bool_decide_eq_false_2 by exact H.
    destruct (Loader_load discover (path item) context item loadedCB); reflexivity.
Qed.

Lemma register_nothing (reg : Registry) (item : PathItem) :
  discover (path item) context = None ->
  register discover context reg item = reg.
Proof. intros H. unfold register, Loader_load. rewrite H. reflexivity. Qed.

(** X7: after the build pass [registry[ns][ty]] holds the stub of the last
    descriptor of [paths], in list order, that has this namespace and this
    server type and whose path yields a module; when there is none, the
    entry is what it was before the pass (absent, for the registry of a new
    client). *)
Theorem last_descriptor_wins (paths : list PathItem) (reg : Registry)
    (ns ty : string) :
  lookup_stub (build discover context paths reg) ns ty =
  match last (omap (loaded_for discover context ns ty) paths) with
  | Some m => Some m
  | None => lookup_stub reg ns ty
  end.
Proof.
  revert reg. induction paths as [|item rest IH]; intros reg; [reflexivity|].
  rewrite build_cons, IH, register_lookup_for. csimpl.
  destruct (loaded_for discover context ns ty item) as [m|]; [|reflexivity].
  rewrite last_cons.
  destruct (last (omap (loaded_for discover context ns ty) rest)); reflexivity.
Qed.

(** X8: descriptors whose path yields no module are skipped without a
    trace: the registry is the one built from the descriptors that do
    yield a module, in the same order. *)
Theorem failed_discovery_is_skipped (paths : list PathItem) (reg : Registry) :
  build discover context paths reg =
  build discover context
    (List.filter (fun item => bool_decide (is_Some (discover (path item) context)))
       paths) reg.
Proof.
  revert reg. induction paths as [|item rest IH]; intros reg; [reflexivity|].
  cbn [List.filter]. destruct (discover (path item) context) as [m|] eqn:Hm.
  - rewrite bool_decide_eq_true_2 by eauto. rewrite !build_cons. apply IH.
  - rewrite bool_decide_eq_false_2 by (intros [? ?]; discriminate).
    rewrite build_cons, register_nothing by exact Hm. apply IH.
Qed.

Lemma register_namespace (reg : Registry) (item : PathItem) (ns : string)
    (inner : gmap string Stub) :
  register discover context reg item !! ns = Some inner ->
  reg !! ns = Some inner \/ inner <> ∅.
Proof.
  unfold register.
  destruct (Loader_load discover (path item) context item loadedCB) as [m|];
    [|left; assumption].
  rewrite lookup_alter. destruct (decide (namespace item = ns)) as [->|Hne].
  - rewrite createNamespace_lookup, decide_True by reflexivity. cbn.
    intros [= <-]. right. apply insert_non_empty.
  - rewrite createNamespace_lookup, decide_False by exact Hne. left; assumption.
Qed.

Lemma build_namespace (paths : list PathItem) (reg : Registry) (ns : string)
    (inner : gmap string Stub) :
  (forall inner', reg !! ns = Some inner' -> inner' <> ∅) ->
  build discover context paths reg !! ns = Some inner -> inner <> ∅.
Proof.
  revert reg. induction paths as [|item rest IH]; intros reg Hreg; [apply Hreg|].
  rewrite build_cons. apply IH. intros inner' H.
  destruct (register_namespace reg item ns inner' H) as [H'|H']; [|exact H'].
  apply Hreg, H'.
Qed.

(** X9: the build pass creates no empty namespace: every namespace of the
    registry of a new client holds at least one stub. *)
Theorem no_empty_namespace (paths : list PathItem) (ns : string)
    (inner : gmap string Stub) :
  build discover context paths ∅ !! ns = Some inner ->
  inner <> ∅ /\ exists ty stub, lookup_stub (build discover context paths ∅) ns ty = Some stub.
Proof.
  intros H.
  assert (Hne : inner <> ∅).
  { apply (build_namespace paths ∅ ns inner); [|exact H].
    intros inner'. rewrite lookup_empty. discriminate. }
  split; [exact Hne|].
  destruct (map_choose inner Hne) as (ty & stub & Hstub).
  exists ty, stub. unfold lookup_stub. rewrite H. exact Hstub.
Qed.

Lemma build_provenance (all paths : list PathItem) (reg : Registry)
    (P : Stub -> Prop) :
  (forall item m,
      item ∈ all ->
      Loader_load discover (path item) context item loadedCB = Some m -> P m) ->
  (forall item, item ∈ paths -> item ∈ all) ->
  (forall ns ty stub, lookup_stub reg ns ty = Some stub -> P stub) ->
  forall ns ty stub,
    lookup_stub (build discover context paths reg) ns ty = Some stub -> P stub.
Proof.
  intros Hload. revert reg. induction paths as [|item rest IH];
    intros reg Hin Hreg ns ty stub; [apply Hreg|].
  rewrite build_cons. apply IH.
  - intros item' H. apply Hin. apply list_elem_of_further, H.
  - intros ns' ty' stub'. rewrite register_lookup.
    destruct (Loader_load discover (path item) context item loadedCB) as [m|] eqn:Hm;
      [|apply Hreg].
    case_decide; [|apply Hreg].
    intros [= <-]. apply (Hload item m); [|exact Hm].
    apply Hin, list_elem_of_here.
Qed.

(** X10: every stub of the registry of a new client comes from a
    descriptor of [paths]: its attachment is that descriptor, it is stored
    under the descriptor's namespace and server type, and its service name
    and callable surface are what the loader found at the descriptor's
    path. *)
Theorem stub_provenance (paths : list PathItem) (ns ty : string) (stub : Stub) :
  lookup_stub (build discover context paths ∅) ns ty = Some stub ->
  attach stub ∈ paths /\
  namespace (attach stub) = ns /\
  serverType (attach stub) = ty /\
  discover (path (attach stub)) context = Some (service stub, origin stub).
Proof.
  intros H.
  destruct (keyed_build discover context paths ∅ keyed_empty ns ty stub H)
    as [Hns Hty].
  assert (Hfrom : attach stub ∈ paths /\
                  discover (path (attach stub)) context =
                  Some (service stub, origin stub)).
  { revert H.
    apply (build_provenance paths paths ∅
             (fun m => attach m ∈ paths /\
                       discover (path (attach m)) context =
                       Some (service m, origin m))).
    - intros item m Hin. unfold Loader_load.
      destruct (discover (path item) context) as [[name module]|] eqn:Hd;
        [|discriminate].
      intros [= <-]. cbn. split; [exact Hin | exact Hd].
    - intros item Hin. exact Hin.
    - intros ns' ty' stub'. unfold lookup_stub. rewrite lookup_empty. discriminate. }
  destruct Hfrom as [Hin Hd]. repeat split; assumption.
Qed.

End RegistryContents.

Lemma no_empty_namespace_witness :
  {["chat" := mkStub "chatRemote" ["send"; "kick"] Demo.chat]} <> (∅ : gmap string Stub) /\
  exists ty stub,
    lookup_stub (build Demo.discover VUndefined [Demo.chat; Demo.gone] ∅) "user" ty =
    Some stub.
Proof.
  apply (no_empty_namespace Demo.discover VUndefined [Demo.chat; Demo.gone] "user").
  vm_compute. reflexivity.
Defined.

Lemma stub_provenance_witness :
  Demo.chat2 ∈ [Demo.chat; Demo.gone; Demo.chat2] /\
  namespace Demo.chat2 = "user" /\
  serverType Demo.chat2 = "chat" /\
  Demo.discover (path Demo.chat2) VUndefined = Some ("roomRemote", ["join"]).
Proof.
  apply (stub_provenance Demo.discover VUndefined [Demo.chat; Demo.gone; Demo.chat2]
           "user" "chat" (mkStub "roomRemote" ["join"] Demo.chat2)).
  vm_compute. reflexivity.
Defined.

(** ** Construction and parameter checking *)

(** X11: what [create] does with its options: the station is created
    first, from [opts.servers] and [opts.mailboxFactory] as given; when
    [opts.paths] is present, whatever its length and whatever the servers,
    a client in state [Inited] is returned, with [opts.router] or else the
    router module as router and the registry of the build pass; when
    [opts.paths] is missing, construction throws after the station was
    created. *)
Theorem create_fails_only_without_paths
    (discover : string -> value -> option (string * list string))
    (router_module : value) (o : Opts) :
  snd (create discover router_module (Some o)) =
    [StationCreate (opt_servers o) (opt_mailboxFactory o)] /\
  match opt_paths o with
  | Some paths =>
      fst (create discover router_module (Some o)) =
      Normal (mkClient (opt_servers o) (opt_context o)
                (if truthy (opt_router o) then opt_router o else router_module)
                (opt_mailboxFactory o) (build discover VUndefined paths ∅) Inited)
  | None => exists e, fst (create discover router_module (Some o)) = Throw e
  end.
Proof.
  unfold create, Client_new, generateProxies, createStation, js_or.
  destruct (opt_paths o) as [paths|]; cbn; split; eauto.
Qed.

(** X12: the discovery context never reaches the loader: the constructor
    keeps [opts.context] in [_context] and builds the registry with an
    undefined context, so two option records that differ only in [context]
    give clients with the same registry. *)
Theorem context_never_reaches_loader
    (discover : string -> value -> option (string * list string))
    (router_module : value) (o : Opts) (context : value) (c : Client)
    (es : list Event) :
  create discover router_module (Some o) = (Normal c, es) ->
  _context c = opt_context o /\
  (exists paths,
      opt_paths o = Some paths /\ proxies c = build discover VUndefined paths ∅) /\
  create discover router_module (Some (with_context context o)) =
    (Normal (mkClient (_servers c) context (router c) (_mailboxFactory c)
               (proxies c) Inited), es).
Proof.
  unfold create, Client_new, generateProxies, with_context. cbn.
  destruct (opt_paths o) as [paths|]; [|discriminate].
  intros [= <- <-]. cbn. repeat split. eauto.
Qed.

Lemma context_never_reaches_loader_witness :
  create Demo.discover Demo.router_module
    (Some (with_context (VStr "app") Demo.opts)) =
  (Normal (mkClient Demo.servers (VStr "app") Demo.router_module VUndefined
             Demo.registry Inited),
   [StationCreate Demo.servers VUndefined]).
Proof.
  apply (context_never_reaches_loader Demo.discover Demo.router_module Demo.opts
           (VStr "app") (Demo.client Inited) [StationCreate Demo.servers VUndefined]).
  reflexivity.
Defined.

(** X14: [checkParams] rejects a [servers] object that has no [length]
    field, such as the mapping from server types to server lists that the
    comment of [create] describes, with "opts.servers should not be
    empty.". *)
Theorem checkParams_rejects_server_map
    (defaultRoute defaultMailBoxFactory : value) (function_length : nat -> Z)
    (o : Opts)
    (item : PathItem) (rest : list PathItem) (fields : list (string * value)) :
  opt_paths o = Some (item :: rest) ->
  opt_servers o = VObj fields ->
  List.find (fun kv => String.eqb (fst kv) "length") fields = None ->
  checkParams defaultRoute defaultMailBoxFactory function_length (Some o) =
  Throw (VError "opts.servers should not be empty.").
Proof.
  intros Hp Hs Hfind. unfold checkParams. rewrite Hp, Hs.
  cbn [js_length]. rewrite Hfind. reflexivity.
Qed.

Lemma checkParams_rejects_server_map_witness :
  checkParams (VFun 3) (VFun 4) (fun _ => 1) (Some Demo.opts) =
  Throw (VError "opts.servers should not be empty.").
Proof.
  apply (checkParams_rejects_server_map (VFun 3) (VFun 4) (fun _ => 1)
           Demo.opts Demo.chat []
           [("chat", VArr [VObj [("id", VStr "chat-server-1")]])]);
    reflexivity.
Defined.

(** X15: the defaults [checkParams] fills in are not read by the
    constructor: it writes [opts.route] and [opts.mailBoxFactory] and leaves
    [opts.router] and [opts.mailboxFactory], the fields [Client] reads, as
    they were, so constructing from the checked options gives the same
    result as constructing from the original ones. *)
Theorem checkParams_defaults_unused
    (discover : string -> value -> option (string * list string))
    (router_module defaultRoute defaultMailBoxFactory : value)
    (function_length : nat -> Z) (o o' : Opts) :
  checkParams defaultRoute defaultMailBoxFactory function_length (Some o) = Normal o' ->
  opt_route o' = (if truthy (opt_route o) then opt_route o else defaultRoute) /\
  opt_mailBoxFactory o' =
    (if truthy (opt_mailboxFactory o) then opt_mailboxFactory o
     else defaultMailBoxFactory) /\
  opt_router o' = opt_router o /\
  opt_mailboxFactory o' = opt_mailboxFactory o /\
  create discover router_module (Some o') = create discover router_module (Some o).
Proof.
  unfold checkParams.
  destruct (match opt_paths o with
            | Some items => negb (truthy (VNum (Z.of_nat (length items))))
            | None => true
            end); [discriminate|].
  destruct (negb (truthy (opt_servers o)) ||
            negb (truthy (js_length function_length (opt_servers o))));
    [discriminate|].
  intros [= <-]. repeat split.
Qed.

Lemma checkParams_defaults_unused_witness :
  let o := mkOpts (Some [Demo.chat]) (VArr [VObj [("id", VStr "chat-server-1")]])
             VNull VUndefined VUndefined VUndefined VUndefined in
  let o' := mkOpts (Some [Demo.chat]) (VArr [VObj [("id", VStr "chat-server-1")]])
              VNull VUndefined VUndefined (VFun 3) (VFun 4) in
  opt_route o' = VFun 3 /\
  opt_mailBoxFactory o' = VFun 4 /\
  opt_router o' = opt_router o /\
  opt_mailboxFactory o' = opt_mailboxFactory o /\
  create Demo.discover Demo.router_module (Some o') =
  create Demo.discover Demo.router_module (Some o).
Proof.
  apply (checkParams_defaults_unused Demo.discover Demo.router_module
           (VFun 3) (VFun 4) (fun _ => 1)
           (mkOpts (Some [Demo.chat]) (VArr [VObj [("id", VStr "chat-server-1")]])
              VNull VUndefined VUndefined VUndefined VUndefined)).
  reflexivity.
Defined.

(** ** Calls in flight *)

Lemma exec_keeps_client (op : Op) (c : Client) :
  state (client_after (exec op c)) = state c ->
  client_after (exec op c) = c.
Proof.
  intros H. rewrite exec_only_state, H. apply with_state_same.
Qed.

Lemma routing_completion_keeps_client (msg cb : value) (params : list value)
    (c : Client) :
  client_after (exec (CallBack (KRoute msg cb) params) c) = c.
Proof. apply exec_keeps_client. rewrite exec_state. reflexivity. Qed.

(** X16: the routing completions of calls in flight do not interfere: a
    routing closure never changes the client, so two of them can complete
    in either order with the same effects, up to their order. *)
Theorem routing_completions_commute (c : Client) (msg1 cb1 msg2 cb2 : value)
    (params1 params2 : list value) :
  let first := CallBack (KRoute msg1 cb1) params1 in
  let second := CallBack (KRoute msg2 cb2) params2 in
  run [first; second] c = c /\
  run [second; first] c = c /\
  exec second (client_after (exec first c)) = exec second c /\
  exec first (client_after (exec second c)) = exec first c /\
  trace [first; second] c ≡ₚ trace [second; first] c.
Proof.
  intros first second. subst first second. cbn [run trace].
  rewrite !routing_completion_keeps_client, !app_nil_r.
  repeat split. apply Permutation_app_comm.
Qed.

Lemma proxyCB_silent (station : value -> value -> value -> list value)
    (c : Client) (serviceName methodName : string) (args : list value)
    (attach : PathItem) (invoke : value) :
  handler_calls station
    (events (proxyCB serviceName methodName args attach invoke c)) = [] /\
  List.filter reaches_station
    (events (proxyCB serviceName methodName args attach invoke c)) = [].
Proof.
  split;
    unfold proxyCB, bind, get_state, get_servers, emit, throw, events, effects;
    destruct (negb (code (state c) =? STATE_STARTED)); try reflexivity;
    destruct (Z.of_nat (length args) <? 2); try reflexivity;
    destruct (shift args) as [routeParam args1];
    destruct (pop args1) as [cb args2]; reflexivity.
Qed.

(** X17: the interception routine itself never invokes a completion
    handler and never reaches the station, whatever the state of the
    client and whatever the arguments, and it never changes the client;
    only the routing closure it hands out does the former two. *)
Theorem proxyCB_calls_nobody (station : value -> value -> value -> list value)
    (c : Client) (serviceName methodName : string) (args : list value)
    (attach : PathItem) (invoke : value) :
  let r := proxyCB serviceName methodName args attach invoke c in
  handler_calls station (events r) = [] /\
  List.filter reaches_station (events r) = [] /\
  client_after r = c.
Proof.
  intros r. subst r.
  destruct (proxyCB_silent station c serviceName methodName args attach invoke)
    as [Hcalls Hstation].
  split; [exact Hcalls | split; [exact Hstation | apply proxyCB_keeps_client]].
Qed.

(** X18: no operation on the client leads to more than one invocation of
    a completion handler, whatever the state and the arguments. *)
Theorem at_most_one_handler_call (station : value -> value -> value -> list value)
    (op : Op) (c : Client) :
  (length (handler_calls station (events (exec op c))) <= 1)%nat.
Proof.
  each_op op; cbn [exec].
  - unfold start, bind, get_state, invokeCallback, emit, events, effects.
    destruct (code (state c) >? STATE_INITED); cbn; lia.
  - unfold stop, bind, get_state, set_state, emit, events, effects.
    destruct (negb (code (state c) =? STATE_STARTED)); cbn; lia.
  - unfold rpcInvoke, bind, get_state, emit, throw, events, effects.
    destruct (negb (code (state c) =? STATE_STARTED)); cbn; lia.
  - cbn. lia.
  - cbn. lia.
  - unfold stub_call.
    destruct (lookup_stub (proxies c) ns ty) as [stub|]; [|cbn; lia].
    destruct (bool_decide (method ∈ origin stub)); [|cbn; lia].
    rewrite (proj1 (proxyCB_silent station c (service stub) method args
                      (attach stub) VUndefined)).
    cbn. lia.
  - destruct k as [cb|msg cb]; cbn [resume].
    + unfold start_completion, bind, set_state, invokeCallback, emit, events, effects.
      destruct (truthy (param 0 params)); cbn; lia.
    + unfold route_completion, rpcInvoke, bind, get_state, invokeCallback, emit,
        throw, events, effects.
      destruct (truthy (param 0 params)); [cbn; lia|].
      destruct (negb (code (state c) =? STATE_STARTED)); cbn; lia.
Qed.
